(** * Reactive custom element: a model of the element classes and their host

    The development embeds the two classes of the library,
    [CustomElement] (src/custom-element.js) and [ReactiveCustomElement]
    (src/reactive-custom-element.js), as functions of a state-and-error
    monad.  Everything the classes call but do not define -- the store
    library, the template renderer, the browser, and the hooks a subclass
    overrides -- is an [environment]: each call is recorded in the element's
    [history] together with its answer, and the answer may be an exception.

    Conventions of the model:
    - an object that the code uses as a map ([this.subscriptions], the data
      object) is the finite map of its own properties; the guard on
      [this.subscriptions[name]] also finds what every object literal
      inherits from [Object.prototype]; the order in which [Object.values]
      lists the entries is left open;
    - the handle returned by [subscribe] and the other results of library
      calls are opaque and have the type their API documents;
    - an environment call answers from the history; it does not re-enter the
      element, so a hook never writes the element's fields. *)

From Stdlib Require Import ZArith Ascii String.
From stdpp Require Import gmap strings list fin_maps.

Set Warnings "-register-all".

(** ** Values *)

(** JavaScript values as far as the element inspects them: it tests
    truthiness and assigns properties.  [VObject] stands for any ordinary
    extensible object, given by its own properties. *)
Inductive value :=
  | VUndefined
  | VNull
  | VBool (b : bool)
  | VNumber (n : Z)
  | VString (s : string)
  | VObject (props : gmap string value).

(** [Boolean(v)], the test behind [||], [?:] and [if]. *)
Definition truthy (v : value) : bool :=
  match v with
  | VUndefined | VNull => false
  | VBool b => b
  | VNumber n => negb (n =? 0)%Z
  | VString s => negb (String.eqb s "")
  | VObject _ => true
  end.

(** A subscription name as destructured from a parsed descriptor: a string,
    or absent. *)
Definition name_truthy (name : option string) : bool :=
  match name with
  | Some s => negb (String.eqb s "")
  | None => false
  end.

(** [this.data[name]]: the property key a name stands for. *)
Definition property_key (name : option string) : string :=
  default "undefined" name.

(** [name || other] *)
Definition name_or (name : option string) (other : string) : string :=
  match name with
  | Some s => if String.eqb s "" then other else s
  | None => other
  end.

(** [s.replace(pat, by)] for a one-character pattern: only the first
    occurrence is replaced. *)
Fixpoint replace (pat : ascii) (by_ : string) (s : string) : string :=
  match s with
  | EmptyString => EmptyString
  | String c rest =>
      if Ascii.eqb c pat then by_ +:+ rest else String c (replace pat by_ rest)
  end.

(** ** Opaque results of the libraries and of the browser *)

Inductive handle := Handle (id : nat).
Inductive store_object := StoreObject (id : nat).
Inductive template := TemplateResult (id : nat).
Inductive node := Node (id : nat).
Inductive listener := Listener (id : nat).
Inductive custom_event := CustomEvent (type_ : string) (detail : value).

(** [this.root]: the element itself, or what [this.shadowRoot] held when the
    constructor read it: the shadow root of an open shadow tree, [null] for
    a closed one. *)
Inductive mount :=
  | Host
  | ShadowRoot (r : node)
  | NullRoot.

(** What [setAttribute] is given for the value: a value, or the member of
    [Object.prototype] that a read through the prototype chain found (a
    function or, under [__proto__], the prototype itself). *)
Inductive argument :=
  | Value (v : value)
  | Member (name : string).

(** The object destructured by [subscribeToStore]. *)
Record descriptor := Descriptor {
  name : option string;
  store : value;
  storePath : value;
  just : value;
  not_ : value;      (* [not] in the source *)
}.

(** What [parse] returns: [Array.isArray] tells the two apart. *)
Inductive parsed :=
  | Single (d : descriptor)
  | Many (ds : list descriptor).

(** The closures the element hands out, by what they do when called. *)
Inductive callback :=
  | UpdateData (name : option string).

Inductive task :=
  | TaskRender          (* this.render.bind(this) *)
  | TaskRendered        (* the arrow function at the end of render *)
  | TaskDebugLog.       (* the arrow function of the DEBUG branch *)

(** The argument of [subscribe]. *)
Record subscription := Subscription {
  sub_callback : callback;
  sub_storePath : value;
  sub_just : value;
  sub_not : value;
  sub_name : option string;
}.

(** The argument of [getDataFromPath]. *)
Record path_query := PathQuery {
  q_storePath : value;
  q_just : value;
  q_not : value;
  q_data : value;
}.

(** A remover pushed on [this.events] by [on]:
    [() => elm.removeEventListener(event, fn)]. *)
Record remover := Remover {
  off_target : option node;       (* None: the element itself *)
  off_event : string;
  off_listener : listener;
}.

(** The constructor's [params] when it is an object. *)
Record params := Params {
  shadowMode : option string;            (* default 'open' *)
  param_styles : option string;          (* a string, else the default false *)
  param_stylesheets : option (list string);
}.

(** ** Errors *)

Inductive error :=
  | TypeError_set (target : value) (key : string)
      (* assignment to a property of a value that is not an object *)
  | TypeError_read (key : string)
      (* property read on undefined or null *)
  | TypeError_call (key : string) (method : string)
      (* [object[key].method()] where the value found has no such method *)
  | Thrown (payload : value).
      (* whatever a library, the browser or a hook throws *)

(** ** Calls that leave the repository *)

Inductive call : Type -> Type :=
  (* reactive-data-store *)
  | Parse (source : value) : call parsed
  | Store (store : value) : call store_object
  | Subscribe (s : store_object) (request : subscription) : call handle
  | Unsubscribe (h : handle) : call unit
  | Data (store : value) : call value
  | GetDataFromPath (q : path_query) : call value
  (* lit-html *)
  | Html_empty : call template
  | RenderTemplate (tpl : template) (target : mount) : call unit
  (* methods a subclass overrides *)
  | BeforeUpdate : call unit
  | PreRenderCheck : call bool
  | BeforeRender : call unit
  | Template : call (option template)
  | OnFirstRender : call unit
  | OnRender : call unit
  (* the browser *)
  | SetTimeout (t : task) (delay : option nat) : call unit
  | DatasetStore : call value
  | AttachShadow (mode : string) : call node
  | CreateElement (tag : string) : call node
  | SetInnerHTML (n : node) (html : string) : call unit
  | SetAttribute (n : node) (attr : string) (v : argument) : call unit
  | QuerySelector (target : mount) (selector : string) : call (option node)
  | AppendChild (target : mount) (child : node) : call unit
  | AddEventListener (target : option node) (event : string) (fn : listener) : call unit
  | RemoveEventListener (target : option node) (event : string) (fn : listener) : call unit
  | NewCustomEvent (type_ : string) (detail : value) : call custom_event
  | DispatchEvent (e : custom_event) : call unit
  | ConsoleLog (tag : string) : call unit.
      (* the DEBUG message, which is built around the lower-cased tag *)

Inductive event :=
  | Event {R : Type} (c : call R) (answer : error + R).

(** The answer to a call, given everything that happened before it. *)
Definition environment := ∀ R : Type, list event → call R → error + R.

(** ** State *)

Record state := State {
  (* HTMLElement *)
  tagName : string;
  (* CustomElement *)
  root : mount;
  events : list remover;
  rendered : bool;
  stylesheets : option (list string);
  styles : option node;
  (* ReactiveCustomElement *)
  data : value;
  subscriptions : gmap string handle;
  (* module variables *)
  DEBUG : bool;
  STYLESHEETS : option (gmap string value);
  (* the calls made so far, oldest first *)
  history : list event;
}.

Definition set_root (r : mount) (st : state) : state :=
  State (tagName st) r (events st) (rendered st) (stylesheets st) (styles st)
        (data st) (subscriptions st) (DEBUG st) (STYLESHEETS st) (history st).
Definition set_events (l : list remover) (st : state) : state :=
  State (tagName st) (root st) l (rendered st) (stylesheets st) (styles st)
        (data st) (subscriptions st) (DEBUG st) (STYLESHEETS st) (history st).
Definition set_rendered (b : bool) (st : state) : state :=
  State (tagName st) (root st) (events st) b (stylesheets st) (styles st)
        (data st) (subscriptions st) (DEBUG st) (STYLESHEETS st) (history st).
Definition set_stylesheets (l : option (list string)) (st : state) : state :=
  State (tagName st) (root st) (events st) (rendered st) l (styles st)
        (data st) (subscriptions st) (DEBUG st) (STYLESHEETS st) (history st).
Definition set_styles (n : option node) (st : state) : state :=
  State (tagName st) (root st) (events st) (rendered st) (stylesheets st) n
        (data st) (subscriptions st) (DEBUG st) (STYLESHEETS st) (history st).
Definition set_data (d : value) (st : state) : state :=
  State (tagName st) (root st) (events st) (rendered st) (stylesheets st) (styles st)
        d (subscriptions st) (DEBUG st) (STYLESHEETS st) (history st).
Definition set_subscriptions (m : gmap string handle) (st : state) : state :=
  State (tagName st) (root st) (events st) (rendered st) (stylesheets st) (styles st)
        (data st) m (DEBUG st) (STYLESHEETS st) (history st).
Definition set_DEBUG (b : bool) (st : state) : state :=
  State (tagName st) (root st) (events st) (rendered st) (stylesheets st) (styles st)
        (data st) (subscriptions st) b (STYLESHEETS st) (history st).
Definition set_STYLESHEETS (m : option (gmap string value)) (st : state) : state :=
  State (tagName st) (root st) (events st) (rendered st) (stylesheets st) (styles st)
        (data st) (subscriptions st) (DEBUG st) m (history st).
Definition record (e : event) (st : state) : state :=
  State (tagName st) (root st) (events st) (rendered st) (stylesheets st) (styles st)
        (data st) (subscriptions st) (DEBUG st) (STYLESHEETS st) (history st ++ [e]).

(** ** The monad: state, and an exception or a result *)

Definition M (A : Type) : Type := state → state * (error + A).

Definition ret {A} (a : A) : M A := λ st, (st, inr a).

Definition bind {A B} (m : M A) (k : A → M B) : M B :=
  λ st, match m st with
        | (st', inr a) => k a st'
        | (st', inl e) => (st', inl e)
        end.

Definition throw {A} (e : error) : M A := λ st, (st, inl e).
Definition get {A} (f : state → A) : M A := λ st, (st, inr (f st)).
Definition modify (f : state → state) : M unit := λ st, (f st, inr tt).

Declare Scope js_scope.
Delimit Scope js_scope with js.
Notation "x <- m ;; k" := (bind m (λ x, k))
  (at level 100, m at next level, right associativity) : js_scope.
Notation "m ;; k" := (bind m (λ _, k))
  (at level 100, right associativity) : js_scope.
Open Scope js_scope.

(** [l.forEach(f)], and [l.map(f)] where the resulting array is dropped. *)
Fixpoint for_each {A} (f : A → M unit) (l : list A) : M unit :=
  match l with
  | [] => ret tt
  | x :: rest => f x ;; for_each f rest
  end.

(** [target[key] = v] in strict code (modules and class bodies are strict).
    On an object the property becomes an own one, or is overwritten; on
    anything else the assignment is a TypeError.  The one exception is the
    key [__proto__], for which [Object.prototype] has a setter: unless the
    target has an own property of that name, the assignment goes to the
    setter, which writes no property (it gives an object another prototype,
    of which a value, holding the own properties only, shows nothing, and
    does nothing at all on a number, a string or a boolean); only on
    [undefined] and [null] is it still a TypeError. *)
Definition set_property (target : value) (key : string) (v : value) : error + value :=
  if String.eqb key "__proto__" then
    match target with
    | VObject props =>
        match props !! key with
        | Some _ => inr (VObject (<[key := v]> props))
        | None => inr target
        end
    | VUndefined | VNull => inl (TypeError_set target key)
    | _ => inr target
    end
  else
    match target with
    | VObject props => inr (VObject (<[key := v]> props))
    | _ => inl (TypeError_set target key)
    end.

(** The properties an object literal inherits from [Object.prototype].  All
    of them are truthy (functions, and for [__proto__] the prototype itself),
    and none has a method of the store library. *)
Definition object_prototype_names : list string :=
  ["constructor"; "hasOwnProperty"; "isPrototypeOf"; "propertyIsEnumerable";
   "toLocaleString"; "toString"; "valueOf"; "__proto__";
   "__defineGetter__"; "__defineSetter__"; "__lookupGetter__";
   "__lookupSetter__"].

Definition inherited (name : string) : bool :=
  existsb (String.eqb name) object_prototype_names.

(** What a read [object[name]] finds in an object literal used as a map. *)
Inductive property (A : Type) :=
  | Own (a : A)       (* an entry of the map *)
  | Inherited         (* a member of [Object.prototype] *)
  | Missing.          (* [undefined] *)
Arguments Own {A} a.
Arguments Inherited {A}.
Arguments Missing {A}.

Definition get_property {A} (object : gmap string A) (name : string)
    : property A :=
  match object !! name with
  | Some a => Own a
  | None => if inherited name then Inherited else Missing
  end.

(** [table[name]] as an argument of [setAttribute]. *)
Definition table_entry (table : gmap string value) (name : string) : argument :=
  match get_property table name with
  | Own v => Value v
  | Inherited => Member name
  | Missing => Value VUndefined
  end.

(** [this.subscriptions[name]].  The map is the object literal that the
    constructor assigns, and only the assignments of [subscribeToStore] add
    to it; none of them can make an own property [__proto__] (it would go to
    the inherited setter), so under that name the read finds the inherited
    member. *)
Definition subscription_under {A} (subs : gmap string A) (name : string)
    : property A :=
  if String.eqb name "__proto__" then Inherited else get_property subs name.

(** [this.shadowRoot] once [attachShadow({mode})] has returned [shadow]: the
    shadow root itself for the mode [open], [null] otherwise. *)
Definition shadowRoot (mode : string) (shadow : node) : mount :=
  if String.eqb mode "open" then ShadowRoot shadow else NullRoot.

(** The own property [key] of a value, if it is an object that has one. *)
Definition own (v : value) (key : string) : option value :=
  match v with
  | VObject props => props !! key
  | _ => None
  end.

(** Every array is truthy, the empty one too. *)
Definition array_truthy {A} (l : list A) : bool := true.

(** [s.toLowerCase()] on ASCII letters. *)
Definition lower_ascii (c : ascii) : ascii :=
  let n := nat_of_ascii c in
  if (65 <=? n)%nat && (n <=? 90)%nat then ascii_of_nat (n + 32) else c.

Fixpoint toLowerCase (s : string) : string :=
  match s with
  | EmptyString => EmptyString
  | String c rest => String (lower_ascii c) (toLowerCase rest)
  end.

(** ** The two classes *)

Section Element.

Variable env : environment.

(** A call into the environment: the answer is recorded, and an exception
    it raises is the exception of the caller. *)
Definition ext {R} (c : call R) : M R :=
  λ st, let answer := env R (history st) c in
        (record (Event c answer) st, answer).

(** *** CustomElement *)

(** [setShadowRoot({shadowMode = 'open', styles = false})].  The root is
    read back through [this.shadowRoot]. *)
Definition setShadowRoot (p : params) : M unit :=
  let mode := default "open" (shadowMode p) in
  shadow <- ext (AttachShadow mode) ;;
  modify (set_root (shadowRoot mode shadow)) ;;
  match param_styles p with
  | Some css =>
      style <- ext (CreateElement "style") ;;
      modify (set_styles (Some style)) ;;
      ext (SetInnerHTML style css)
  | None => ret tt
  end.

(** [on(event, elm, fn)]; [target = None] is the call without [elm]. *)
Definition on (event : string) (target : option node) (fn : listener)
    : M remover :=
  ext (AddEventListener target event fn) ;;
  let off := Remover target event fn in
  evs <- get events ;;
  modify (set_events (evs ++ [off])) ;;
  ret off.

(** Calling a remover. *)
Definition run_remover (off : remover) : M unit :=
  ext (RemoveEventListener (off_target off) (off_event off) (off_listener off)).

(** [dispatch(event)], with [elm] and [data] left out: the detail is
    [false || undefined], and [undefined instanceof HTMLElement] is false,
    so the element dispatches on itself. *)
Definition dispatch (type_ : string) : M unit :=
  e <- ext (NewCustomEvent type_ VUndefined) ;;
  ext (DispatchEvent e).

(** [selector(selector)]: [this.root.querySelector(selector)].  On a root
    that is [null] the read of [querySelector] is a TypeError. *)
Definition selector (sel : string) : M (option node) :=
  r <- get root ;;
  match r with
  | NullRoot => throw (TypeError_read "querySelector")
  | _ => ext (QuerySelector r sel)
  end.

(** [this.root.appendChild(elm)] *)
Definition appendChild (elm : node) : M unit :=
  r <- get root ;;
  match r with
  | NullRoot => throw (TypeError_read "appendChild")
  | _ => ext (AppendChild r elm)
  end.

Definition buildStylesheets : M unit :=
  sheets <- get stylesheets ;;
  match sheets with
  | None => ret tt
  | Some sheets =>
      link <- selector "link" ;;
      match link with
      | Some _ => ret tt
      | None =>
          for_each (λ stylesheet,
            elm <- ext (CreateElement "link") ;;
            ext (SetAttribute elm "rel" (Value (VString "stylesheet"))) ;;
            table <- get STYLESHEETS ;;
            match table with
            | None => throw (TypeError_read stylesheet)
            | Some table =>
                (* the table is read through its prototype chain *)
                ext (SetAttribute elm "href" (table_entry table stylesheet)) ;;
                appendChild elm
            end) sheets
      end
  end.

(** The deferred arrow function at the end of [render]. *)
Definition rendered_task : M unit :=
  done <- get rendered ;;
  (if negb done
   then ext OnFirstRender ;; modify (set_rendered true)
   else ret tt) ;;
  ext OnRender ;;
  dispatch "rendered".

Definition render : M value :=
  pass <- ext PreRenderCheck ;;
  if negb pass then ret (VString "") else
  ext BeforeRender ;;
  t <- ext Template ;;
  tpl <- match t with
         | Some tpl => ret tpl
         | None => ext Html_empty
         end ;;
  r <- get root ;;
  ext (RenderTemplate tpl r) ;;
  buildStylesheets ;;
  style <- get styles ;;
  match style with
  | Some style =>
      found <- selector "style" ;;
      match found with
      | Some _ => ret tt
      | None => appendChild style
      end
  | None => ret tt
  end ;;
  ext (SetTimeout TaskRendered (Some 200)) ;;
  ret VUndefined.

Definition connectedCallback : M unit :=
  render ;; ret tt.

(** [CustomElement.prototype.disconnectedCallback] *)
Definition super_disconnectedCallback : M unit :=
  evs <- get events ;;
  for_each run_remover evs.

(** [constructor(params)] of [CustomElement]; [None] is a [params] for
    which [isObject] is false. *)
Definition super_constructor (p : option params) : M unit :=
  modify (set_root Host) ;;
  modify (set_events []) ;;
  modify (set_rendered false) ;;
  match p with
  | Some p =>
      setShadowRoot p ;;
      modify (set_stylesheets (Some (default [] (param_stylesheets p))))
  | None => ret tt
  end.

(** *** ReactiveCustomElement *)

Definition constructor (p : option params) : M unit :=
  super_constructor p ;;
  modify (set_data (VObject ∅)) ;;
  modify (set_subscriptions ∅).

(** [this.data[name] = v] *)
Definition assign_data (key : string) (v : value) : M unit :=
  d <- get data ;;
  match set_property d key v with
  | inr d' => modify (set_data d')
  | inl e => throw e
  end.

Definition unsubscribeFromStore (name : string) : M unit :=
  subs <- get subscriptions ;;
  match subscription_under subs name with
  | Own h => ext (Unsubscribe h)
  | Inherited => throw (TypeError_call name "unsubscribe")
  | Missing => ret tt
  end.

(** The handles are gone through in the order of the map's list of entries;
    [Object.values] gives them in the order in which the keys were first
    assigned.  Which handle is called before which is the one thing the
    model does not take from the code here, and no statement below speaks
    of it. *)
Definition unsubscribeFromAllStores : M unit :=
  subs <- get subscriptions ;;
  if array_truthy (map_to_list subs).*1 then
    for_each (λ sub, ext (Unsubscribe sub)) (map_to_list subs).*2 ;;
    modify (set_subscriptions ∅)
  else ret tt.

Definition disconnectedCallback : M unit :=
  super_disconnectedCallback ;;
  unsubscribeFromAllStores.

(** The function returned by [updateData(name)], applied to [data]. *)
Definition updateData (name : option string) (d : value) : M unit :=
  ext BeforeUpdate ;;
  (if name_truthy name
   then assign_data (property_key name) d
   else modify (set_data d)) ;;
  render ;;
  debug <- get DEBUG ;;
  if debug then
    ext (SetTimeout TaskDebugLog (Some 1100))
  else ret tt.

(** The key under which [subscribeToStore] files a subscription:
    [name || this.tagName.replace('-', '')]. *)
Definition subscription_key (tag : string) (name : option string) : string :=
  name_or name (replace "-" "" tag).

Definition subscribeToStore (d : descriptor) (dorender : bool) : M unit :=
  tag <- get tagName ;;
  let key := subscription_key tag (name d) in
  unsubscribeFromStore key ;;
  s <- ext (Store (store d)) ;;
  h <- ext (Subscribe s (Subscription (UpdateData (name d))
                           (storePath d) (just d) (not_ d) (name d))) ;;
  subs <- get subscriptions ;;
  modify (set_subscriptions (<[key := h]> subs)) ;;
  whole <- ext (Data (store d)) ;;
  v <- ext (GetDataFromPath
              (PathQuery (storePath d) (just d) (not_ d) whole)) ;;
  (if name_truthy (name d)
   then assign_data (property_key (name d)) v
   else modify (set_data v)) ;;
  if dorender then render ;; ret tt else ret tt.

(** [setStore(store)]; the call without argument passes [VUndefined]. *)
Definition setStore (store : value) : M unit :=
  let dorender := truthy store in
  source <- (if truthy store then ret store else ext DatasetStore) ;;
  stores <- ext (Parse source) ;;
  match stores with
  | Many ds => for_each (λ d, subscribeToStore d dorender) ds
  | Single d => subscribeToStore d dorender
  end.

Definition attributeChangedCallback (attr : string) : M unit :=
  if String.eqb attr "data-store" then
    setStore VUndefined ;;
    ext (SetTimeout TaskRender None)
  else ret tt.

(** The arrow function of the DEBUG branch of [updateData]. *)
Definition debug_log_task : M unit :=
  tag <- get tagName ;;
  ext (ConsoleLog (toLowerCase tag)).

(** *** The element as its host sees it *)

(** What the host does when a timer fires. *)
Definition run_task (t : task) : M unit :=
  match t with
  | TaskRender => render ;; ret tt
  | TaskRendered => rendered_task
  | TaskDebugLog => debug_log_task
  end.

(** What the store does when it notifies a subscriber. *)
Definition run_callback (cb : callback) (d : value) : M unit :=
  match cb with
  | UpdateData name => updateData name d
  end.

(** The calls the outside makes on an element: its lifecycle, its
    subscriptions, rendering, and the closures it handed out. *)
Inductive operation :=
  | ConnectedCallback
  | DisconnectedCallback
  | AttributeChangedCallback (attr : string)
  | SetStore (store : value)
  | SubscribeToStore (d : descriptor) (dorender : bool)
  | UnsubscribeFromStore (name : string)
  | UnsubscribeFromAllStores
  | Render
  | On (event : string) (target : option node) (fn : listener)
  | Notify (cb : callback) (d : value)
  | Fire (t : task).

Definition perform (op : operation) : M unit :=
  match op with
  | ConnectedCallback => connectedCallback
  | DisconnectedCallback => disconnectedCallback
  | AttributeChangedCallback attr => attributeChangedCallback attr
  | SetStore s => setStore s
  | SubscribeToStore d dorender => subscribeToStore d dorender
  | UnsubscribeFromStore name => unsubscribeFromStore name
  | UnsubscribeFromAllStores => unsubscribeFromAllStores
  | Render => render ;; ret tt
  | On event target fn => on event target fn ;; ret tt
  | Notify cb d => run_callback cb d
  | Fire t => run_task t
  end.

(** A caller that goes on after an exception: the state is the one the
    failing operation left behind. *)
Fixpoint perform_all (ops : list operation) (st : state) : state :=
  match ops with
  | [] => st
  | op :: rest => perform_all rest (perform op st).1
  end.

End Element.

(** [CustomElement.setStylesheets] and [CustomElement.debug]: they assign the
    two module variables, for all elements at once. *)
Definition setStylesheets (sheets : gmap string value) : M unit :=
  modify (set_STYLESHEETS (Some sheets)).

Definition debug (toDebugOrNotToDebug : bool) : M unit :=
  modify (set_DEBUG toDebugOrNotToDebug).

(** ** Sample hosts *)

(** A host in which every call succeeds.  [subscribe] returns a handle
    numbered by the length of the history, [getDataFromPath] hands back the
    store's data, [template()] returns [tpl], and the root holds no [link]
    or [style] element yet. *)
Definition calm (stores : parsed) (whole : value) (tpl : option template)
    : environment :=
  λ R past c,
    match c in call R return error + R with
    | Parse _ => inr stores
    | Store _ => inr (StoreObject 0)
    | Subscribe _ _ => inr (Handle (length past))
    | Unsubscribe _ => inr tt
    | Data _ => inr whole
    | GetDataFromPath q => inr (q_data q)
    | Html_empty => inr (TemplateResult 0)
    | RenderTemplate _ _ => inr tt
    | BeforeUpdate => inr tt
    | PreRenderCheck => inr true
    | BeforeRender => inr tt
    | Template => inr tpl
    | OnFirstRender => inr tt
    | OnRender => inr tt
    | SetTimeout _ _ => inr tt
    | DatasetStore => inr (VString "app")
    | AttachShadow _ => inr (Node 1)
    | CreateElement _ => inr (Node (2 + length past))
    | SetInnerHTML _ _ => inr tt
    | SetAttribute _ _ _ => inr tt
    | QuerySelector _ _ => inr None
    | AppendChild _ _ => inr tt
    | AddEventListener _ _ _ => inr tt
    | RemoveEventListener _ _ _ => inr tt
    | NewCustomEvent type_ detail => inr (CustomEvent type_ detail)
    | DispatchEvent _ => inr tt
    | ConsoleLog _ => inr tt
    end.

(** The host of the base classes themselves: no hook is overridden, so
    [template()] returns nothing. *)
Definition plain : environment :=
  calm (Single (Descriptor None (VString "app") VUndefined VUndefined VUndefined))
       (VObject ∅) None.

(** A host like [calm], but in which unsubscribing handle [bad] throws. *)
Definition stubborn (bad : nat) (payload : value) : environment :=
  λ R past c,
    match c in call R return error + R with
    | Unsubscribe (Handle id) =>
        if Nat.eqb id bad then inl (Thrown payload) else inr tt
    | c => plain _ past c
    end.

(** The memory of an element before its constructor has run. *)
Definition allocate (tag : string) (debug : bool)
    (sheets : option (gmap string value)) (past : list event) : state :=
  State tag Host [] false None None VUndefined ∅ debug sheets past.

(** [new] on a class registered under [tag]. *)
Definition create (env : environment) (tag : string) (p : option params) : state :=
  (constructor env p (allocate tag false None [])).1.

(** ** Runs *)

(** The events a run added: all of them succeeded, or the last one raised
    the exception of the run, or the engine itself raised a [TypeError]. *)
Definition succeeded (ev : event) : Prop :=
  match ev with
  | Event _ (inr _) => True
  | Event _ (inl _) => False
  end.

Definition raised (e : error) (ev : event) : Prop :=
  match ev with
  | Event _ (inl e') => e' = e
  | Event _ (inr _) => False
  end.

Definition engine_error (e : error) : Prop :=
  match e with
  | TypeError_set _ _ | TypeError_read _ | TypeError_call _ _ => True
  | Thrown _ => False
  end.

Inductive outcome (engine : error → Prop) {A} : list event → error + A → Prop :=
  | outcome_value evs a :
      Forall succeeded evs → outcome engine evs (inr a)
  | outcome_raised evs ev e :
      Forall succeeded evs → raised e ev → outcome engine (evs ++ [ev]) (inl e)
  | outcome_engine evs e :
      Forall succeeded evs → engine e → outcome engine evs (inl e).

(** Calls by kind. *)
Definition store_call (ev : event) : bool :=
  match ev with
  | Event c _ =>
      match c with
      | Parse _ | Store _ | Subscribe _ _ | Unsubscribe _
      | Data _ | GetDataFromPath _ => true
      | _ => false
      end
  end.

Definition renderer_call (ev : event) : bool :=
  match ev with
  | Event c _ =>
      match c with
      | RenderTemplate _ _ => true
      | _ => false
      end
  end.

(** Calls that change the document tree. *)
Definition dom_write (ev : event) : bool :=
  match ev with
  | Event c _ =>
      match c with
      | SetInnerHTML _ _ | SetAttribute _ _ _ | AppendChild _ _ => true
      | _ => false
      end
  end.

(** The housekeeping of [render] for stylesheets: looking for a [link] or
    [style] element under the root, making a [link] element and setting its
    [rel] and [href], appending an element. *)
Definition stylesheet_call (ev : event) : bool :=
  match ev with
  | Event c _ =>
      match c with
      | QuerySelector _ selector =>
          String.eqb selector "link" || String.eqb selector "style"
      | CreateElement tag => String.eqb tag "link"
      | SetAttribute _ attr _ => String.eqb attr "rel" || String.eqb attr "href"
      | AppendChild _ _ => true
      | _ => false
      end
  end.

(** Deferred callbacks handed to the host, with their delay. *)
Definition deferred (ev : event) : option (task * option nat) :=
  match ev with
  | Event c _ =>
      match c with
      | SetTimeout t delay => Some (t, delay)
      | _ => None
      end
  end.

(** A deferred callback that renders. *)
Definition defers_render (ev : event) : bool :=
  match deferred ev with
  | Some (TaskRender, _) => true
  | _ => false
  end.

(** [run_with m Q]: from every state, [m] appends some events to the history,
    and [Q] holds of them and of the result. *)
Definition run_with {A} (m : M A) (Q : list event → error + A → Prop) : Prop :=
  ∀ st, ∃ evs, history (m st).1 = history st ++ evs ∧ Q evs (m st).2.

(** [keeps f m]: [m] leaves the field [f] alone. *)
Definition keeps {A X} (f : state → X) (m : M A) : Prop :=
  ∀ st, f (m st).1 = f st.

(** The events a run appended to the history. *)
Definition emitted {A} (m : M A) (st : state) : list event :=
  drop (length (history st)) (history (m st).1).

(** Exceptions pass through [m]; [engine] bounds the ones [m] may get from
    the engine. *)
Definition passes (engine : error → Prop) {A} (m : M A) : Prop :=
  run_with m (outcome engine).

(** [m] fails only when the environment does. *)
Definition relays {A} (m : M A) : Prop := passes (λ _, False) m.

(** Every event [m] adds to the history satisfies [P]. *)
Definition emits (P : event → Prop) {A} (m : M A) : Prop :=
  run_with m (λ evs _, Forall P evs).

(** The fields of the element and the module variables, without the
    history. *)
Definition memory (st : state) :=
  (tagName st, root st, events st, rendered st, stylesheets st, styles st,
   data st, subscriptions st, DEBUG st, STYLESHEETS st).

(** What no method of an element assigns once the constructor is through:
    its tag name, root, stylesheet list and style element, and the two module
    variables. *)
Definition fixed (st : state) :=
  (tagName st, root st, stylesheets st, styles st, DEBUG st, STYLESHEETS st).

(** ** Bookkeeping of subscriptions *)

(** A [subscribe] call that returned: its request and the handle. *)
Definition subscribed (ev : event) : option (subscription * handle) :=
  match ev with
  | Event c answer =>
      match c in call R return error + R → option (subscription * handle) with
      | Subscribe _ request =>
          λ answer, match answer with
                    | inr h => Some (request, h)
                    | inl _ => None
                    end
      | _ => λ _, None
      end answer
  end.

(** The handles that [subscribe] returned for requests filed under [key],
    oldest first; [key_of] maps the name of a request to its key. *)
Definition handles_filed (key_of : option string → string) (key : string)
    (past : list event) : list handle :=
  omap (λ ev, match subscribed ev with
              | Some (request, h) =>
                  if decide (key_of (sub_name request) = key) then Some h else None
              | None => None
              end) past.

(** Every entry of the subscription map holds the handle that the latest
    [subscribe] call for its key returned. *)
Definition bookkeeping (key_of : option string → string) (st : state) : Prop :=
  ∀ key h,
    subscriptions st !! key = Some h →
    last (handles_filed key_of key (history st)) = Some h.

(** The invariant of an element registered under [tag]. *)
Definition well_kept (tag : string) (st : state) : Prop :=
  tagName st = tag ∧ bookkeeping (subscription_key tag) st.

(** [m] maintains [I]. *)
Definition preserves (I : state → Prop) {A} (m : M A) : Prop :=
  ∀ st, I st → I (m st).1.

(** ** What an operation can depend on *)

(** Two states that neither the element nor its environment can tell apart:
    the fields agree, and the environment answers every call alike after
    what has happened in either, whatever happens from then on. *)
Definition alike (env : environment) (st1 st2 : state) : Prop :=
  memory st1 = memory st2 ∧
  ∀ evs R (c : call R),
    env R (history st1 ++ evs) c = env R (history st2 ++ evs) c.

(** [m] does the same from states that are alike: it has the same result,
    makes the same calls with the same answers, and leaves states that are
    alike again. *)
Definition uniform (env : environment) {A} (m : M A) : Prop :=
  ∀ st1 st2, alike env st1 st2 →
    (m st1).2 = (m st2).2 ∧
    alike env (m st1).1 (m st2).1 ∧
    ∃ evs, history (m st1).1 = history st1 ++ evs ∧
           history (m st2).1 = history st2 ++ evs.

(** ** The spec's wording, where it differs from the code *)

(** C3 in the spec's words: the key of a subscription is its name, or the
    element's tag name when no name is given. *)
Definition claimed_subscription_key (tag : string) (name : option string) : string :=
  name_or name tag.

(** C2 in the spec's words: an update step does not call the renderer; it
    hands the host a deferred callback that renders. *)
Definition render_is_deferred (env : environment) (op : operation) (st : state)
    : Prop :=
  let evs := emitted (perform env op) st in
  Forall (λ ev, renderer_call ev = false) evs ∧
  Exists (λ ev, defers_render ev = true) evs.

(** C5 in the spec's words: the two mappings are all the state there is, so
    two states of an element that agree on them (and on what the constructor
    fixed) answer every operation with the same calls. *)
Definition two_mappings_are_the_state (env : environment) (op : operation)
    (st1 st2 : state) : Prop :=
  fixed st1 = fixed st2 →
  subscriptions st1 = subscriptions st2 →
  data st1 = data st2 →
  emitted (perform env op) st1 = emitted (perform env op) st2.

(** C10 in the spec's words: for every non-empty name, the update writes the
    received data to the entry of the data for that name. *)
Definition claimed_named_update (target : value) (key : string) (d : value)
    : value :=
  match target with
  | VObject props => VObject (<[key := d]> props)
  | not_an_object => not_an_object
  end.

(** C6 in the spec's words: rendering is the renderer's business alone, the
    element itself changes nothing in the document. *)
Definition render_delegates_entirely (env : environment) (st : state) : Prop :=
  Forall (λ ev, dom_write ev = false) (emitted (render env) st).

(** ** Sample elements *)

Definition my_element : state := create plain "MY-ELEMENT" None.

(** An element with a shadow root and a style sheet of its own. *)
Definition styled_element : state :=
  create plain "MY-ELEMENT" (Some (Params None (Some "p { margin: 0 }") None)).

Definition user_descriptor : descriptor :=
  Descriptor (Some "user") (VString "app") (VString "user") VUndefined VUndefined.

Definition nameless_descriptor : descriptor :=
  Descriptor None (VString "app") VUndefined VUndefined VUndefined.

(** [my_element] after subscribing to the [user] path of the store, to the
    whole store without a name, and listening for clicks. *)
Definition subscribed_element : state :=
  perform_all plain
    [SubscribeToStore user_descriptor false;
     SubscribeToStore nameless_descriptor false;
     On "click" None (Listener 1)]
    my_element.

(** An element, in a host whose handle 1 cannot be unsubscribed, that holds
    that handle. *)
Definition stuck_element : state :=
  perform_all (stubborn 1 (VString "gone"))
    [SubscribeToStore user_descriptor false]
    (create (stubborn 1 (VString "gone")) "MY-ELEMENT" None).

(** [my_element] after the store has delivered an object as its whole
    data. *)
Definition aged_element : state :=
  perform_all plain [Notify (UpdateData None) (VObject {["age" := VNumber 1]})]
    my_element.

(** A descriptor named like the tag of [my_element], and the element after
    subscribing with it. *)
Definition tag_descriptor : descriptor :=
  Descriptor (Some "MY-ELEMENT") (VString "app") VUndefined VUndefined
    VUndefined.

Definition tagged_element : state :=
  perform_all plain [SubscribeToStore tag_descriptor false] my_element.

(** A host like [plain] that answers without regard to what happened
    before. *)
Definition steady : environment := λ R past c, plain R [] c.

(** A state with its fields and none of its history. *)
Definition forget (st : state) : state :=
  State (tagName st) (root st) (events st) (rendered st) (stylesheets st)
    (styles st) (data st) (subscriptions st) (DEBUG st) (STYLESHEETS st) [].

(** ** More of the code, and what the further properties speak of *)

(** The events between two states of one run. *)
Definition since (st st' : state) : list event :=
  drop (length (history st)) (history st').

(** The descriptors [setStore] goes through. *)
Definition descriptors (stores : parsed) : list descriptor :=
  match stores with
  | Single d => [d]
  | Many ds => ds
  end.

(** [onFirstRender] was called and returned. *)
Definition first_render_done (ev : event) : bool :=
  match ev with
  | Event c answer =>
      match c in call R return error + R → bool with
      | OnFirstRender =>
          λ answer, match answer with
                    | inr _ => true
                    | inl _ => false
                    end
      | _ => λ _, false
      end answer
  end.

Definition first_renders (evs : list event) : nat :=
  length (List.filter first_render_done evs).

(** What [render] does once it is past its check, up to the deferred
    notification. *)
Definition past_the_check (ev : event) : bool :=
  match ev with
  | Event c _ =>
      match c with
      | BeforeRender | Template | Html_empty | RenderTemplate _ _
      | QuerySelector _ _ | CreateElement _ | SetAttribute _ _ _
      | AppendChild _ _ => true
      | SetTimeout TaskRendered _ => true
      | _ => false
      end
  end.

(** A listener was registered: the remover that [on] makes for it. *)
Definition listener_added (ev : event) : option remover :=
  match ev with
  | Event c answer =>
      match c in call R return error + R → option remover with
      | AddEventListener target type_ fn =>
          λ answer, match answer with
                    | inr _ => Some (Remover target type_ fn)
                    | inl _ => None
                    end
      | _ => λ _, None
      end answer
  end.

Definition registered (evs : list event) : list remover :=
  omap listener_added evs.

(** The call a remover makes, when it returns. *)
Definition removal (off : remover) : event :=
  Event (RemoveEventListener (off_target off) (off_event off) (off_listener off))
        (inr tt).

Definition unsubscription (h : handle) : event :=
  Event (Unsubscribe h) (inr tt).

(** An element appended to the document. *)
Definition appends (ev : event) : bool :=
  match ev with
  | Event c _ =>
      match c with
      | AppendChild _ _ => true
      | _ => false
      end
  end.

(** The data-store attribute was read. *)
Definition reads_dataset (ev : event) : bool :=
  match ev with
  | Event c _ =>
      match c with
      | DatasetStore => true
      | _ => false
      end
  end.

(** The four calls that link one stylesheet. *)
Definition link_calls (r : mount) (table : gmap string value)
    (stylesheet : string) (elm : node) : list event :=
  [Event (CreateElement "link") (inr elm);
   Event (SetAttribute elm "rel" (Value (VString "stylesheet"))) (inr tt);
   Event (SetAttribute elm "href" (table_entry table stylesheet)) (inr tt);
   Event (AppendChild r elm) (inr tt)].

(** The characters of a string. *)
Fixpoint characters (s : string) : list ascii :=
  match s with
  | EmptyString => []
  | String c rest => c :: characters rest
  end.

(** ** More sample hosts and elements *)

(** A host like [plain] whose subclass overrides [preRenderCheck] to refuse. *)
Definition gated : environment :=
  λ R past c,
    match c in call R return error + R with
    | PreRenderCheck => inr false
    | c => plain _ past c
    end.

(** An element with an open shadow root and three stylesheets to link. *)
Definition linked_element : state :=
  create plain "MY-ELEMENT"
    (Some (Params (Some "open") None (Some ["main"; "theme"; "toString"]))).

Definition sheet_table : gmap string value :=
  {["main" := VString "/main.css"]}.

(** What a run that started in [st0] keeps true of [onFirstRender]: the calls
    of it that returned, and the [rendered] flag. *)
Definition first_render_kept (st0 st : state) : Prop :=
  ∃ evs, history st = history st0 ++ evs ∧
         first_renders evs + Nat.b2n (rendered st0) = Nat.b2n (rendered st).

(** What it keeps true of the listeners: [this.events] holds a remover for
    every registration, in the order they were made. *)
Definition listeners_kept (st0 st : state) : Prop :=
  ∃ evs, history st = history st0 ++ evs ∧
         events st = events st0 ++ registered evs.

(** No event of the kind [P] since [st0]. *)
Definition none_since (P : event → bool) (st0 st : state) : Prop :=
  ∃ evs, history st = history st0 ++ evs ∧ Forall (λ ev, P ev = false) evs.

(** ** Subscriptions that are open *)

Definition same_handle (a b : handle) : bool :=
  match a, b with
  | Handle i, Handle j => Nat.eqb i j
  end.

(** The subscriptions that are open after one more call: a [subscribe] that
    returned opens one, under the key of its request; an [unsubscribe] that
    returned closes the ones of its handle. *)
Definition settle (key_of : option string → string)
    (pending : list (string * handle)) (ev : event) : list (string * handle) :=
  match ev with
  | Event c answer =>
      match c in call R return error + R → list (string * handle) with
      | Subscribe _ request =>
          λ answer, match answer with
                    | inr h => pending ++ [(key_of (sub_name request), h)]
                    | inl _ => pending
                    end
      | Unsubscribe h =>
          λ answer, match answer with
                    | inr _ =>
                        List.filter (λ p, negb (same_handle p.2 h)) pending
                    | inl _ => pending
                    end
      | _ => λ _, pending
      end answer
  end.

(** The subscriptions a history leaves open, with their keys. *)
Definition open_subscriptions (key_of : option string → string)
    (past : list event) : list (string * handle) :=
  fold_left (settle key_of) past [].

(** Every open subscription of an element registered under [tag] is an entry
    of its subscription map. *)
Definition all_filed (tag : string) (st : state) : Prop :=
  tagName st = tag ∧
  ∀ key h,
    (key, h) ∈ open_subscriptions (subscription_key tag) (history st) →
    subscriptions st !! key = Some h.

(** An element that has not subscribed yet. *)
Definition nothing_open (tag : string) (st : state) : Prop :=
  tagName st = tag ∧
  open_subscriptions (subscription_key tag) (history st) = [].

(** [m], when it returns, has called the renderer [n] times. *)
Definition renders (n : nat) {A} (m : M A) : Prop :=
  run_with m (λ evs r,
    (∃ a, r = inr a) → length (List.filter renderer_call evs) = n).

(** The key under which each descriptor is filed. *)
Definition keys_of (tag : string) (ds : list descriptor) : list string :=
  map (λ d, subscription_key tag (name d)) ds.

(** A host like [plain] whose [parse] returns two descriptors. *)
Definition two_stores : environment :=
  calm (Many [user_descriptor; nameless_descriptor]) (VObject ∅) None.

(** [linked_element] once the table of stylesheets is set. *)
Definition tabled_element : state :=
  (setStylesheets sheet_table linked_element).1.

(** What the samples do to an element. *)
Definition sample_operations : list operation :=
  [On "click" None (Listener 1); SubscribeToStore user_descriptor false].

Definition gated_operations : list operation :=
  [ConnectedCallback; Notify (UpdateData None) (VNumber 1); Fire TaskRender;
   SetStore (VString "app")].

(** A host like [plain] in which removing a listener throws. *)
Definition jammed (payload : value) : environment :=
  λ R past c,
    match c in call R return error + R with
    | RemoveEventListener _ _ _ => inl (Thrown payload)
    | c => plain _ past c
    end.

(** * Reasoning about the methods *)

Create HintDb passing.
Create HintDb keeping.
Create HintDb emitting.
Create HintDb preserving.

Section Rules.

Variable env : environment.

Lemma bind_inr {A B} (m : M A) (k : A → M B) st st' b :
  bind m k st = (st', inr b) ↔
  ∃ st1 a, m st = (st1, inr a) ∧ k a st1 = (st', inr b).
Proof.
  unfold bind. destruct (m st) as [st1 [e|a]]; split.
  - intros [=].
  - intros (? & ? & [=] & _).
  - eauto.
  - intros (? & ? & [= <- <-] & H). exact H.
Qed.

Lemma bind_inl {A B} (m : M A) (k : A → M B) st st' e :
  bind m k st = (st', inl e) ↔
  m st = (st', inl e) ∨ ∃ st1 a, m st = (st1, inr a) ∧ k a st1 = (st', inl e).
Proof.
  unfold bind. destruct (m st) as [st1 [e1|a]]; split.
  - intros [= <- <-]. by left.
  - intros [[= <- <-]|(? & ? & [=] & _)]. done.
  - right. eauto.
  - intros [[=]|(? & ? & [= <- <-] & H)]. exact H.
Qed.

Lemma emitted_app {A} (m : M A) st evs :
  history (m st).1 = history st ++ evs → emitted m st = evs.
Proof. unfold emitted. intros ->. by rewrite drop_app_length. Qed.

(** *** Rules for [run_with] *)

Lemma run_ret {A} (a : A) (Q : list event → error + A → Prop) :
  Q [] (inr a) → run_with (ret a) Q.
Proof. intros H st. exists []. split; [simpl; by rewrite app_nil_r | apply H]. Qed.

Lemma run_throw {A} e (Q : list event → error + A → Prop) :
  Q [] (inl e) → run_with (throw e) Q.
Proof. intros H st. exists []. split; [simpl; by rewrite app_nil_r | apply H]. Qed.

Lemma run_get {A} (f : state → A) (Q : list event → error + A → Prop) :
  (∀ a, Q [] (inr a)) → run_with (get f) Q.
Proof. intros H st. exists []. split; [simpl; by rewrite app_nil_r | apply H]. Qed.

Lemma run_modify f (Q : list event → error + unit → Prop) :
  (∀ st, history (f st) = history st) → Q [] (inr tt) → run_with (modify f) Q.
Proof. intros Hf H st. exists []. split; [simpl; by rewrite Hf, app_nil_r | apply H]. Qed.

Lemma run_ext {R} (c : call R) (Q : list event → error + R → Prop) :
  (∀ a, Q [Event c a] a) → run_with (ext env c) Q.
Proof. intros H st. eexists. split; [reflexivity | apply H]. Qed.

Lemma run_bind {A B} (m : M A) (k : A → M B) Q1 Q2
    (Q : list event → error + B → Prop) :
  run_with m Q1 →
  (∀ a, run_with (k a) (Q2 a)) →
  (∀ evs e, Q1 evs (inl e) → Q evs (inl e)) →
  (∀ evs1 a evs2 r, Q1 evs1 (inr a) → Q2 a evs2 r → Q (evs1 ++ evs2) r) →
  run_with (bind m k) Q.
Proof.
  intros Hm Hk Hl Hr st. unfold bind.
  destruct (Hm st) as (evs1 & H1 & HQ1).
  destruct (m st) as [st1 [e|a]]; simpl in *.
  - exists evs1. auto.
  - destruct (Hk a st1) as (evs2 & H2 & HQ2).
    exists (evs1 ++ evs2). rewrite H2, H1, app_assoc. eauto.
Qed.

Lemma run_weaken {A} (m : M A) (Q Q' : list event → error + A → Prop) :
  run_with m Q → (∀ evs r, Q evs r → Q' evs r) → run_with m Q'.
Proof. intros H HQ st. destruct (H st) as (evs & ? & ?). eauto. Qed.

(** *** Exceptions pass through *)

Section Passes.

Variable engine : error → Prop.

Lemma outcome_inl {A B} evs e :
  @outcome engine A evs (inl e) → @outcome engine B evs (inl e).
Proof.
  inversion 1; subst.
  - by apply outcome_raised.
  - by apply outcome_engine.
Qed.

Lemma outcome_app {A B} evs1 (a : A) evs2 (r : error + B) :
  outcome engine evs1 (inr a) → outcome engine evs2 r →
  outcome engine (evs1 ++ evs2) r.
Proof.
  inversion 1; subst. inversion 1; subst.
  - apply outcome_value. by apply Forall_app.
  - rewrite app_assoc. apply outcome_raised; [by apply Forall_app | done].
  - apply outcome_engine; [by apply Forall_app | done].
Qed.

Lemma passes_ret {A} (a : A) : passes engine (ret a).
Proof. apply run_ret. by apply outcome_value. Qed.

Lemma passes_get {A} (f : state → A) : passes engine (get f).
Proof. apply run_get. intros. by apply outcome_value. Qed.

Lemma passes_modify f :
  (∀ st, history (f st) = history st) → passes engine (modify f).
Proof. intros. apply run_modify; [done | by apply outcome_value]. Qed.

Lemma passes_throw {A} e : engine e → passes engine (@throw A e).
Proof. intros. apply run_throw. by apply outcome_engine. Qed.

Lemma passes_ext {R} (c : call R) : passes engine (ext env c).
Proof.
  apply run_ext. intros [e|a].
  - by apply (outcome_raised engine []).
  - apply outcome_value. by repeat constructor.
Qed.

Lemma passes_bind {A B} (m : M A) (k : A → M B) :
  passes engine m → (∀ a, passes engine (k a)) → passes engine (bind m k).
Proof.
  intros Hm Hk.
  apply (run_bind m k (outcome engine) (λ _, outcome engine));
    [exact Hm | exact Hk | |].
  - intros. by eapply outcome_inl.
  - intros. by eapply outcome_app.
Qed.

Lemma passes_for_each {A} (f : A → M unit) l :
  (∀ x, passes engine (f x)) → passes engine (for_each f l).
Proof.
  intros Hf. induction l as [|x l IH]; simpl.
  - apply passes_ret.
  - apply passes_bind; auto.
Qed.

End Passes.

(** *** Events a program adds *)

Section Emits.

Variable P : event → Prop.

Lemma emits_ret {A} (a : A) : emits P (ret a).
Proof. by apply run_ret. Qed.

Lemma emits_get {A} (f : state → A) : emits P (get f).
Proof. by apply run_get. Qed.

Lemma emits_throw {A} e : emits P (@throw A e).
Proof. by apply run_throw. Qed.

Lemma emits_modify f :
  (∀ st, history (f st) = history st) → emits P (modify f).
Proof. intros. by apply run_modify. Qed.

Lemma emits_ext {R} (c : call R) :
  (∀ a, P (Event c a)) → emits P (ext env c).
Proof. intros H. apply run_ext. intros a. by repeat constructor. Qed.

Lemma emits_bind {A B} (m : M A) (k : A → M B) :
  emits P m → (∀ a, emits P (k a)) → emits P (bind m k).
Proof.
  intros Hm Hk.
  apply (run_bind m k (λ evs _, Forall P evs) (λ _ evs _, Forall P evs));
    [exact Hm | exact Hk | done |].
  intros. by apply Forall_app.
Qed.

Lemma emits_for_each {A} (f : A → M unit) l :
  (∀ x, emits P (f x)) → emits P (for_each f l).
Proof.
  intros Hf. induction l as [|x l IH]; simpl.
  - apply emits_ret.
  - apply emits_bind; auto.
Qed.

End Emits.

(** *** Fields a program leaves alone *)

Section Keeps.

Context {X : Type} (f : state → X).
Hypothesis f_record : ∀ ev st, f (record ev st) = f st.

Lemma keeps_ret {A} (a : A) : keeps f (ret a).
Proof. done. Qed.

Lemma keeps_get {A} (g : state → A) : keeps f (get g).
Proof. done. Qed.

Lemma keeps_throw {A} e : keeps f (@throw A e).
Proof. done. Qed.

Lemma keeps_modify g : (∀ st, f (g st) = f st) → keeps f (modify g).
Proof. intros H st. apply H. Qed.

Lemma keeps_ext {R} (c : call R) : keeps f (ext env c).
Proof. intros st. apply f_record. Qed.

Lemma keeps_bind {A B} (m : M A) (k : A → M B) :
  keeps f m → (∀ a, keeps f (k a)) → keeps f (bind m k).
Proof.
  intros Hm Hk st. unfold bind. specialize (Hm st).
  destruct (m st) as [st1 [e|a]]; simpl in *; [done|].
  by rewrite Hk.
Qed.

Lemma keeps_for_each {A} (g : A → M unit) l :
  (∀ x, keeps f (g x)) → keeps f (for_each g l).
Proof.
  intros Hg. induction l as [|x l IH]; simpl.
  - apply keeps_ret.
  - by apply keeps_bind.
Qed.

End Keeps.

(** *** Single calls *)

Lemma ext_inr {R} (c : call R) st st' a :
  ext env c st = (st', inr a) →
  env R (history st) c = inr a ∧ st' = record (Event c (inr a)) st.
Proof. unfold ext. intros [= <- H]. by rewrite H. Qed.

Lemma ext_inl {R} (c : call R) st st' e :
  ext env c st = (st', inl e) →
  env R (history st) c = inl e ∧ st' = record (Event c (inl e)) st.
Proof. unfold ext. intros [= <- H]. by rewrite H. Qed.

(** *** Stepping through a program *)

Lemma step_get {A B} (f : state → A) (k : A → M B) st :
  bind (get f) k st = k (f st) st.
Proof. done. Qed.

Lemma step_modify {B} f (k : unit → M B) st :
  bind (modify f) k st = k tt (f st).
Proof. done. Qed.

Lemma step_ret {A B} (a : A) (k : A → M B) st :
  bind (ret a) k st = k a st.
Proof. done. Qed.

Lemma step_throw {A B} e (k : A → M B) st :
  bind (throw e) k st = (st, inl e).
Proof. done. Qed.

Lemma step_ext {R B} (c : call R) (k : R → M B) st :
  bind (ext env c) k st =
  match env R (history st) c with
  | inr a => k a (record (Event c (inr a)) st)
  | inl e => (record (Event c (inl e)) st, inl e)
  end.
Proof. unfold bind, ext. simpl. by destruct (env R (history st) c). Qed.

Lemma step_bind {A B C} (m : M A) (k1 : A → M B) (k2 : B → M C) st :
  bind (bind m k1) k2 st = bind m (λ a, bind (k1 a) k2) st.
Proof. unfold bind. by destruct (m st) as [? [?|?]]. Qed.

Lemma passes_grows engine {A} (m : M A) :
  passes engine m → ∀ st, ∃ evs, history (m st).1 = history st ++ evs.
Proof. intros H st. destruct (H st) as (evs & ? & _). eauto. Qed.

(** A loop of calls that all succeeded. *)
Lemma for_each_ext_inr {A} (c : A → call unit) l st st' :
  for_each (λ x, ext env (c x)) l st = (st', inr tt) →
  history st' = history st ++ map (λ x, Event (c x) (inr tt)) l ∧
  memory st' = memory st.
Proof.
  revert st. induction l as [|x l IH]; intros st; simpl.
  - intros [= <-]. by rewrite app_nil_r.
  - rewrite step_ext. destruct (env unit (history st) (c x)) as [e|[]]; [done|].
    intros H. apply IH in H as [-> ->]. simpl. by rewrite <- app_assoc.
Qed.

Lemma outcome_inl_last engine {A} evs e :
  @outcome engine A evs (inl e) →
  (∃ ev, last evs = Some ev ∧ raised e ev) ∨ engine e.
Proof.
  inversion 1; subst; [left|by right].
  eexists. split; [apply last_snoc | done].
Qed.

Lemma outcome_inr_succeeded engine {A} evs (a : A) :
  outcome engine evs (inr a) → Forall succeeded evs.
Proof. by inversion 1. Qed.

End Rules.

(** ** The methods, rule by rule *)

(** Steps through a program with the rules above. *)
Ltac pass_step :=
  first
    [ solve [auto with passing]
    | apply passes_ret
    | apply passes_get
    | apply passes_ext
    | apply passes_modify; intros []; reflexivity
    | apply passes_throw; exact I
    | apply passes_for_each; intros
    | apply passes_bind; [|intros]
    | match goal with
      | |- passes _ (match ?x with _ => _ end) => destruct x
      end ].

(** An assignment fails only with the TypeError of its target. *)
Lemma set_property_inl target key v e :
  set_property target key v = inl e → e = TypeError_set target key.
Proof.
  unfold set_property.
  destruct (String.eqb key "__proto__"), target;
    try done; try (by intros [= <-]).
  by destruct (_ !! _).
Qed.

(** Any key but [__proto__] becomes an own property of an object. *)
Lemma set_property_plain props key v :
  key ≠ "__proto__" →
  set_property (VObject props) key v = inr (VObject (<[key := v]> props)).
Proof.
  intros Hkey. unfold set_property.
  apply String.eqb_neq in Hkey. by rewrite Hkey.
Qed.

Lemma assign_data_propagates (env : environment) key v :
  passes engine_error (assign_data key v).
Proof.
  unfold assign_data. apply passes_bind; [apply passes_get|].
  intros d. destruct (set_property d key v) as [e|written] eqn:Hwrite.
  - apply set_property_inl in Hwrite as ->. pass_step.
  - pass_step.
Qed.
#[global] Hint Resolve assign_data_propagates : passing.

Lemma buildStylesheets_propagates (env : environment) :
  passes engine_error (buildStylesheets env).
Proof. unfold buildStylesheets. repeat pass_step. Qed.
#[global] Hint Resolve buildStylesheets_propagates : passing.

Lemma render_propagates (env : environment) : passes engine_error (render env).
Proof. unfold render. repeat pass_step. Qed.
#[global] Hint Resolve render_propagates : passing.

Lemma unsubscribeFromAllStores_relays (env : environment) :
  relays (unsubscribeFromAllStores env).
Proof. unfold relays, unsubscribeFromAllStores. repeat pass_step. Qed.

Lemma disconnectedCallback_relays (env : environment) :
  relays (disconnectedCallback env).
Proof.
  unfold relays, disconnectedCallback, super_disconnectedCallback, run_remover.
  apply passes_bind; [|intros; apply unsubscribeFromAllStores_relays].
  repeat pass_step.
Qed.

Lemma relays_propagates {A} (m : M A) : relays m → passes engine_error m.
Proof.
  intros H. eapply run_weaken; [exact H|].
  intros evs r Ho. inversion Ho; subst.
  - by apply outcome_value.
  - by apply outcome_raised.
  - done.
Qed.

Lemma unsubscribeFromStore_propagates (env : environment) name :
  passes engine_error (unsubscribeFromStore env name).
Proof. unfold unsubscribeFromStore. repeat pass_step. Qed.
#[global] Hint Resolve unsubscribeFromStore_propagates : passing.

Lemma unsubscribeFromAllStores_propagates (env : environment) :
  passes engine_error (unsubscribeFromAllStores env).
Proof. apply relays_propagates, unsubscribeFromAllStores_relays. Qed.
#[global] Hint Resolve unsubscribeFromAllStores_propagates : passing.

Lemma disconnectedCallback_propagates (env : environment) :
  passes engine_error (disconnectedCallback env).
Proof. apply relays_propagates, disconnectedCallback_relays. Qed.
#[global] Hint Resolve disconnectedCallback_propagates : passing.

Lemma updateData_propagates (env : environment) name d :
  passes engine_error (updateData env name d).
Proof. unfold updateData. repeat pass_step. Qed.
#[global] Hint Resolve updateData_propagates : passing.

Lemma subscribeToStore_propagates (env : environment) d dorender :
  passes engine_error (subscribeToStore env d dorender).
Proof. unfold subscribeToStore. repeat pass_step. Qed.
#[global] Hint Resolve subscribeToStore_propagates : passing.

Lemma setStore_propagates (env : environment) s :
  passes engine_error (setStore env s).
Proof. unfold setStore. repeat pass_step. Qed.
#[global] Hint Resolve setStore_propagates : passing.

Lemma rendered_task_propagates (env : environment) :
  passes engine_error (rendered_task env).
Proof. unfold rendered_task, dispatch. repeat pass_step. Qed.
#[global] Hint Resolve rendered_task_propagates : passing.

Lemma perform_propagates (env : environment) op :
  passes engine_error (perform env op).
Proof.
  destruct op; simpl;
    unfold connectedCallback, attributeChangedCallback, on, run_callback,
      run_task, debug_log_task;
    repeat pass_step.
Qed.

Ltac keep_step :=
  first
    [ solve [auto with keeping]
    | apply keeps_ret
    | apply keeps_get
    | apply keeps_throw
    | apply keeps_ext; intros ? []; reflexivity
    | apply keeps_modify; intros []; reflexivity
    | apply keeps_for_each; intros
    | apply keeps_bind; [|intros]
    | match goal with
      | |- keeps _ (match ?x with _ => _ end) => destruct x
      end ].

Ltac emit_step :=
  first
    [ solve [auto with emitting]
    | apply emits_ret
    | apply emits_get
    | apply emits_throw
    | apply emits_ext; intros; reflexivity
    | apply emits_modify; intros []; reflexivity
    | apply emits_for_each; intros
    | apply emits_bind; [|intros]
    | match goal with
      | |- emits _ (match ?x with _ => _ end) => destruct x
      end ].

(** Stepping through a run that is known to have succeeded. *)
Ltac step_in H :=
  repeat first
    [ rewrite step_get in H
    | rewrite step_modify in H
    | rewrite step_ret in H
    | rewrite step_bind in H
    | rewrite step_ext in H;
      match type of H with
      | context [match ?env ?R ?h ?c with _ => _ end] =>
          let a := fresh "a" in
          let Ha := fresh "Ha" in
          destruct (env R h c) as [?|a] eqn:Ha; [discriminate H|]
      end ].

(** Rendering talks to the environment and writes no field. *)
Lemma render_keeps_memory (env : environment) : keeps memory (render env).
Proof. unfold render, buildStylesheets. repeat keep_step. Qed.

Lemma keeps_memory_field {A X} (m : M A) (g : _ → X) :
  keeps memory m → keeps (λ st, g (memory st)) m.
Proof. intros H st. by rewrite H. Qed.

Lemma render_keeps_data (env : environment) : keeps data (render env).
Proof. apply (keeps_memory_field _ (λ x, x.1.1.1.2)), render_keeps_memory. Qed.

Lemma render_keeps_subscriptions (env : environment) :
  keeps subscriptions (render env).
Proof. apply (keeps_memory_field _ (λ x, x.1.1.2)), render_keeps_memory. Qed.

#[global] Hint Resolve render_keeps_memory render_keeps_data
  render_keeps_subscriptions : keeping.

Lemma buildStylesheets_keeps_memory (env : environment) :
  keeps memory (buildStylesheets env).
Proof. unfold buildStylesheets. repeat keep_step. Qed.

Lemma buildStylesheets_emits (env : environment) :
  emits (λ ev, stylesheet_call ev = true) (buildStylesheets env).
Proof. unfold buildStylesheets. repeat emit_step. Qed.

(** A rendering that got past the check and returned. *)
Lemma render_inr (env : environment) st st' v :
  env bool (history st) PreRenderCheck = inr true →
  render env st = (st', inr v) →
  ∃ t tpl empty housekeeping,
    history st' =
      history st
      ++ [Event PreRenderCheck (inr true); Event BeforeRender (inr tt);
          Event Template (inr t)]
      ++ empty
      ++ [Event (RenderTemplate tpl (root st)) (inr tt)]
      ++ housekeeping
      ++ [Event (SetTimeout TaskRendered (Some 200)) (inr tt)] ∧
    match t with
    | Some returned => tpl = returned ∧ empty = []
    | None => empty = [Event Html_empty (inr tpl)]
    end ∧
    Forall (λ ev, stylesheet_call ev = true) housekeeping ∧
    (stylesheets st = None → styles st = None → housekeeping = []) ∧
    v = VUndefined.
Proof.
  intros Hcheck Hrun. unfold render in Hrun.
  rewrite step_ext, Hcheck in Hrun. simpl in Hrun.
  rewrite step_ext in Hrun.
  destruct (env unit _ BeforeRender) as [?|[]]; [done|].
  rewrite step_ext in Hrun.
  destruct (env (option template) _ Template) as [?|t]; [done|].
  assert (∀ tpl st0 st1 w,
    (r <- get root ;; ext env (RenderTemplate tpl r) ;;
     buildStylesheets env ;; style <- get styles ;;
     match style with
     | Some style =>
         found <- selector env "style" ;;
         match found with
         | Some _ => ret tt
         | None => appendChild env style
         end
     | None => ret tt
     end ;;
     ext env (SetTimeout TaskRendered (Some 200)) ;; ret VUndefined) st0
    = (st1, inr w) →
    ∃ housekeeping,
      history st1 = history st0
        ++ [Event (RenderTemplate tpl (root st0)) (inr tt)]
        ++ housekeeping
        ++ [Event (SetTimeout TaskRendered (Some 200)) (inr tt)] ∧
      Forall (λ ev, stylesheet_call ev = true) housekeeping ∧
      (stylesheets st0 = None → styles st0 = None → housekeeping = []) ∧
      w = VUndefined) as Hrest.
  { clear. intros tpl st0 st1 w H.
    rewrite step_get, step_ext in H.
    destruct (env unit _ (RenderTemplate _ _)) as [?|[]]; [done|].
    apply bind_inr in H as (st2 & [] & Hbuild & H).
    destruct (buildStylesheets_emits env
                (record (Event (RenderTemplate tpl (root st0)) (inr tt)) st0))
      as (evs1 & Hevs1 & Hall1).
    pose proof (buildStylesheets_keeps_memory env
                (record (Event (RenderTemplate tpl (root st0)) (inr tt)) st0))
      as Hmem.
    assert (stylesheets st0 = None → evs1 = []) as Hnone1.
    { intros Hno. revert Hevs1. unfold buildStylesheets.
      rewrite step_get. simpl. rewrite Hno. simpl.
      rewrite <- (app_nil_r (history st0 ++ _)) at 1.
      intros Heq. apply app_inv_head in Heq. by subst. }
    rewrite Hbuild in Hevs1, Hmem. simpl in Hevs1, Hmem.
    assert (styles st2 = styles st0 ∧ root st2 = root st0) as [Hst Hrt]
      by (by injection Hmem).
    rewrite step_get, Hst in H.
    destruct (styles st0) as [style|] eqn:Hstyle.
    - apply bind_inr in H as (st3 & [] & Hstyled & H).
      assert (emits (λ ev, stylesheet_call ev = true)
                (found <- selector env "style" ;;
                 match found with
                 | Some _ => ret tt
                 | None => appendChild env style
                 end)) as Hemits
        by (unfold selector, appendChild; repeat emit_step).
      destruct (Hemits st2) as (evs2 & Hevs2 & Hall2).
      rewrite Hstyled in Hevs2. simpl in Hevs2.
      rewrite step_ext in H.
      destruct (env unit _ (SetTimeout _ _)) as [?|[]]; [done|].
      injection H as <- <-. simpl. rewrite Hevs2, Hevs1. simpl.
      exists (evs1 ++ evs2).
      rewrite <- !app_assoc. simpl. split; [done|]. split; [|done].
      by apply Forall_app.
    - rewrite step_ret, step_ext in H.
      destruct (env unit _ (SetTimeout _ _)) as [?|[]]; [done|].
      injection H as <- <-. simpl. rewrite Hevs1. simpl.
      exists evs1. rewrite <- !app_assoc. simpl. split; [done|].
      split; [done|]. split; [|done]. auto. }
  destruct t as [returned|].
  - rewrite step_ret in Hrun. apply Hrest in Hrun as (hk & Hh & Hall & Hno & ->).
    exists (Some returned), returned, [], hk. simpl in *.
    rewrite Hh, <- !app_assoc. simpl. done.
  - rewrite step_ext in Hrun.
    destruct (env template _ Html_empty) as [?|tpl]; [done|].
    apply Hrest in Hrun as (hk & Hh & Hall & Hno & ->).
    exists None, tpl, [Event Html_empty (inr tpl)], hk. simpl in *.
    rewrite Hh, <- !app_assoc. simpl. done.
Qed.

Lemma stylesheet_call_not_renderer ev :
  stylesheet_call ev = true → renderer_call ev = false.
Proof. destruct ev as [R c a]. by destruct c. Qed.

Lemma filter_renderer_housekeeping l :
  Forall (λ ev, stylesheet_call ev = true) l → List.filter renderer_call l = [].
Proof.
  induction 1 as [|ev l Hev _ IH]; simpl; [done|].
  by rewrite (stylesheet_call_not_renderer _ Hev).
Qed.

(** Subscribing without [dorender] does not reach the renderer. *)
Lemma subscribeToStore_quietly (env : environment) d :
  emits (λ ev, renderer_call ev = false) (subscribeToStore env d false).
Proof. unfold subscribeToStore, unsubscribeFromStore, assign_data. repeat emit_step. Qed.

Lemma attributeChangedCallback_quietly (env : environment) attr :
  emits (λ ev, renderer_call ev = false) (attributeChangedCallback env attr).
Proof.
  unfold attributeChangedCallback, setStore. simpl.
  pose proof (subscribeToStore_quietly env).
  repeat first [done | emit_step].
Qed.

(** Nothing but [attributeChangedCallback] defers a render. *)
Lemma render_defers_no_render (env : environment) :
  emits (λ ev, defers_render ev = false) (render env).
Proof. unfold render, buildStylesheets. repeat emit_step. Qed.

Lemma updateData_defers_no_render (env : environment) name d :
  emits (λ ev, defers_render ev = false) (updateData env name d).
Proof.
  unfold updateData, assign_data. pose proof (render_defers_no_render env).
  repeat first [done | emit_step].
Qed.

(** The data after the callback of [updateData(name)] has run on [d]. *)
Lemma updateData_data (env : environment) name d st :
  env unit (history st) BeforeUpdate = inr tt →
  if name_truthy name then
    match set_property (data st) (property_key name) d with
    | inr written => data (updateData env name d st).1 = written
    | inl e => data (updateData env name d st).1 = data st ∧
               (updateData env name d st).2 = inl e
    end
  else data (updateData env name d st).1 = d.
Proof.
  intros Hhook. unfold updateData. rewrite step_ext, Hhook.
  assert (∀ v st0, (bind (modify (set_data v)) (λ _, render env ;;
             debug <- get DEBUG ;;
             if debug then ext env (SetTimeout TaskDebugLog (Some 1100))
             else ret tt) st0).1.(data) = v) as Hwhole.
  { intros v st0. rewrite step_modify.
    match goal with |- data (?m _).1 = _ =>
      assert (keeps data m) as -> by repeat keep_step end.
    reflexivity. }
  destruct (name_truthy name); [|apply Hwhole].
  unfold assign_data. rewrite step_bind, step_get. simpl.
  destruct (set_property (data st) (property_key name) d) as [e|written].
  - by rewrite step_throw.
  - apply Hwhole.
Qed.

(** No method assigns the fields the constructor fixed. *)
Lemma perform_keeps_fixed (env : environment) op : keeps fixed (perform env op).
Proof.
  destruct op; simpl;
    unfold connectedCallback, disconnectedCallback, super_disconnectedCallback,
      attributeChangedCallback, setStore, subscribeToStore, updateData,
      unsubscribeFromStore, unsubscribeFromAllStores, assign_data, render,
      buildStylesheets, on, run_remover, run_callback, run_task, rendered_task,
      dispatch, debug_log_task;
    repeat keep_step.
Qed.

(** What the constructor leaves behind. *)
Lemma constructor_inr (env : environment) p st0 st :
  constructor env p st0 = (st, inr tt) →
  data st = VObject ∅ ∧ subscriptions st = ∅ ∧
  events st = [] ∧ rendered st = false.
Proof.
  unfold constructor, super_constructor. intros H.
  apply bind_inr in H as (st1 & [] & Hsuper & H).
  rewrite !step_modify in Hsuper. injection H as <-. simpl.
  assert (keeps (λ st, (events st, rendered st))
            (match p with
             | Some p =>
                 setShadowRoot env p ;;
                 modify (set_stylesheets (Some (default [] (param_stylesheets p))))
             | None => ret tt
             end)) as Hkeep
    by (unfold setShadowRoot; repeat keep_step).
  specialize (Hkeep (set_rendered false (set_events [] (set_root Host st0)))).
  rewrite Hsuper in Hkeep. simpl in Hkeep. by injection Hkeep as -> ->.
Qed.

(** What the read of the subscription map finds. *)
Lemma subscription_under_None {A} (subs : gmap string A) name :
  subs !! name = None →
  subscription_under subs name = if inherited name then Inherited else Missing.
Proof.
  intros Hnone. unfold subscription_under, get_property. rewrite Hnone.
  destruct (String.eqb name "__proto__") eqn:Hname; [|done].
  apply String.eqb_eq in Hname. by subst.
Qed.

Lemma subscription_under_Some {A} (subs : gmap string A) name a :
  name ≠ "__proto__" → subs !! name = Some a →
  subscription_under subs name = Own a.
Proof.
  intros Hname Hsome. unfold subscription_under, get_property.
  apply String.eqb_neq in Hname. by rewrite Hname, Hsome.
Qed.

Lemma subscription_under_Own {A} (subs : gmap string A) name a :
  subscription_under subs name = Own a →
  name ≠ "__proto__" ∧ subs !! name = Some a.
Proof.
  unfold subscription_under, get_property.
  destruct (String.eqb name "__proto__") eqn:Hname; [done|].
  apply String.eqb_neq in Hname.
  destruct (subs !! name); [by intros [= ->]|].
  by destruct (inherited name).
Qed.

(** Unsubscribing a name that the map has no entry for: nothing happens,
    unless the name is one that the map inherits. *)
Lemma unsubscribeFromStore_missing (env : environment) name st :
  subscriptions st !! name = None → inherited name = false →
  unsubscribeFromStore env name st = (st, inr tt).
Proof.
  intros Hnone Hplain. unfold unsubscribeFromStore.
  by rewrite step_get, subscription_under_None, Hplain.
Qed.

Lemma unsubscribeFromStore_inherited (env : environment) name st :
  subscriptions st !! name = None → inherited name = true →
  unsubscribeFromStore env name st
  = (st, inl (TypeError_call name "unsubscribe")).
Proof.
  intros Hnone Hinherited. unfold unsubscribeFromStore.
  by rewrite step_get, subscription_under_None, Hinherited.
Qed.

(** So no subscription is ever filed under an inherited name. *)
Lemma subscribeToStore_inherited (env : environment) d dorender st :
  let key := subscription_key (tagName st) (name d) in
  subscriptions st !! key = None → inherited key = true →
  subscribeToStore env d dorender st
  = (st, inl (TypeError_call key "unsubscribe")).
Proof.
  intros key Hnone Hinherited. unfold subscribeToStore.
  rewrite step_get. fold key.
  pose proof (unsubscribeFromStore_inherited env key st Hnone Hinherited) as H.
  unfold bind at 1. by rewrite H.
Qed.

(** Rendering does not touch the store. *)
Lemma render_emits_no_store_call (env : environment) :
  emits (λ ev, store_call ev = false) (render env).
Proof. unfold render, buildStylesheets. repeat emit_step. Qed.


(** ** The subscription map and the handles the store returned *)

Section Bookkeeping.

Variable env : environment.
Variable tag : string.

Lemma handles_filed_snoc key_of key past ev :
  handles_filed key_of key (past ++ [ev]) =
  handles_filed key_of key past ++
  match subscribed ev with
  | Some (request, h) =>
      if decide (key_of (sub_name request) = key) then [h] else []
  | None => []
  end.
Proof.
  unfold handles_filed. rewrite omap_app. f_equal. simpl.
  destruct (subscribed ev) as [[request h]|]; [|done].
  by destruct (decide _).
Qed.

Lemma preserves_ret {A} (a : A) : preserves (well_kept tag) (ret a).
Proof. by intros st. Qed.

Lemma preserves_get {A} (f : state → A) : preserves (well_kept tag) (get f).
Proof. by intros st. Qed.

Lemma preserves_throw {A} e : preserves (well_kept tag) (@throw A e).
Proof. by intros st. Qed.

Lemma preserves_bind {A B} (m : M A) (k : A → M B) :
  preserves (well_kept tag) m → (∀ a, preserves (well_kept tag) (k a)) →
  preserves (well_kept tag) (bind m k).
Proof.
  intros Hm Hk st HI. unfold bind. specialize (Hm st HI).
  destruct (m st) as [st1 [e|a]]; simpl in *; [done|]. by apply Hk.
Qed.

Lemma preserves_for_each {A} (f : A → M unit) l :
  (∀ x, preserves (well_kept tag) (f x)) →
  preserves (well_kept tag) (for_each f l).
Proof.
  intros Hf. induction l as [|x l IH]; simpl.
  - apply preserves_ret.
  - by apply preserves_bind.
Qed.

Lemma preserves_modify f :
  (∀ st, tagName (f st) = tagName st ∧
         subscriptions (f st) = subscriptions st ∧
         history (f st) = history st) →
  preserves (well_kept tag) (modify f).
Proof.
  intros Hf st [Htag Hbook]. destruct (Hf st) as (Ht & Hs & Hh).
  split; simpl; [congruence|].
  intros key h. rewrite Hs, Hh. apply Hbook.
Qed.

Lemma preserves_reset :
  preserves (well_kept tag) (modify (set_subscriptions ∅)).
Proof. intros st [Htag _]. split; [done|]. intros key h. by simpl. Qed.

(** A call that is not a [subscribe] that returned. *)
Lemma well_kept_record ev st :
  subscribed ev = None → well_kept tag st → well_kept tag (record ev st).
Proof.
  intros Hev [Htag Hbook]. split; [done|].
  intros key h Hkey. simpl in *.
  rewrite handles_filed_snoc, Hev, app_nil_r. by apply Hbook.
Qed.

Lemma preserves_ext {R} (c : call R) :
  (∀ a, subscribed (Event c a) = None) → preserves (well_kept tag) (ext env c).
Proof. intros Hc st HI. by apply well_kept_record. Qed.

(** [subscribe] and the assignment that files its handle, taken together. *)
Lemma preserves_subscribe {A} s request (k : M A) :
  preserves (well_kept tag) k →
  preserves (well_kept tag)
    (h <- ext env (Subscribe s request) ;;
     subs <- get subscriptions ;;
     modify (set_subscriptions
               (<[subscription_key tag (sub_name request) := h]> subs)) ;;
     k).
Proof.
  intros Hk st HI. rewrite step_ext.
  destruct (env handle (history st) (Subscribe s request)) as [e|h] eqn:Hanswer.
  - by apply well_kept_record.
  - rewrite step_get, step_modify. apply Hk.
    destruct HI as [Htag Hbook]. split; [done|].
    intros key h' Hkey.
    remember (subscription_key tag (sub_name request)) as filed eqn:Hfiled.
    simpl in Hkey. simpl history.
    rewrite handles_filed_snoc. simpl subscribed. cbv iota beta.
    rewrite <- Hfiled.
    destruct (decide (filed = key)) as [->|Hne].
    + rewrite lookup_insert_eq in Hkey. injection Hkey as <-.
      by rewrite last_snoc.
    + rewrite lookup_insert_ne in Hkey by done.
      rewrite app_nil_r. by apply Hbook.
Qed.

End Bookkeeping.

Ltac preserve_step :=
  first
    [ solve [auto with preserving]
    | apply preserves_ret
    | apply preserves_get
    | apply preserves_throw
    | apply preserves_ext; intros; reflexivity
    | apply preserves_modify; intros []; done
    | apply preserves_for_each; intros
    | apply preserves_bind; [|intros]
    | match goal with
      | |- preserves _ (match ?x with _ => _ end) => destruct x
      end ].

Lemma render_preserves (env : environment) tag :
  preserves (well_kept tag) (render env).
Proof. unfold render, buildStylesheets. repeat preserve_step. Qed.
#[global] Hint Resolve render_preserves : preserving.

Lemma subscribeToStore_preserves (env : environment) tag d dorender :
  preserves (well_kept tag) (subscribeToStore env d dorender).
Proof.
  intros st HI. pose proof HI as [Htag _]. revert st HI Htag.
  unfold subscribeToStore. intros st HI Htag.
  rewrite step_get, Htag.
  revert st HI Htag.
  match goal with
  | |- ∀ st, _ → _ → well_kept _ (?m st).1 =>
      enough (preserves (well_kept tag) m) as Hm by (intros; by apply Hm)
  end.
  apply preserves_bind;
    [unfold unsubscribeFromStore; repeat preserve_step|intros _].
  apply preserves_bind; [repeat preserve_step|intros s].
  apply (preserves_subscribe env tag s
           (Subscription (UpdateData (name d)) (storePath d) (just d)
              (not_ d) (name d))).
  unfold assign_data. repeat preserve_step.
Qed.
#[global] Hint Resolve subscribeToStore_preserves : preserving.

Lemma perform_preserves (env : environment) tag op :
  preserves (well_kept tag) (perform env op).
Proof.
  pose proof (preserves_reset tag).
  destruct op; simpl;
    unfold connectedCallback, disconnectedCallback, super_disconnectedCallback,
      attributeChangedCallback, setStore, updateData,
      unsubscribeFromStore, unsubscribeFromAllStores, assign_data,
      on, run_remover, run_callback, run_task, rendered_task,
      dispatch, debug_log_task;
    repeat first [assumption | preserve_step].
Qed.

Lemma perform_all_preserves (env : environment) tag ops st :
  well_kept tag st → well_kept tag (perform_all env ops st).
Proof.
  revert st. induction ops as [|op ops IH]; intros st HI; simpl; [done|].
  apply IH. by apply perform_preserves.
Qed.

(** An entry that is the latest handle filed is the answer to a [subscribe]
    call of the history for that key. *)
Lemma handles_filed_last key_of key past h :
  last (handles_filed key_of key past) = Some h →
  ∃ s request,
    Event (Subscribe s request) (inr h) ∈ past ∧
    key = key_of (sub_name request).
Proof.
  intros Hlast. apply last_Some_elem_of in Hlast.
  unfold handles_filed in Hlast. apply list_elem_of_omap in Hlast
    as (ev & Hev & Hfiled).
  destruct ev as [R c answer].
  destruct c; simpl in Hfiled; try done.
  destruct answer as [e|h0]; [done|].
  destruct (decide _) as [<-|]; [|done].
  injection Hfiled as <-. eauto.
Qed.

(** ** The fields are all that an operation depends on *)

Section Uniform.

Variable env : environment.

Lemma uniform_ret {A} (a : A) : uniform env (ret a).
Proof.
  intros st1 st2 H. split; [done|]. split; [done|].
  exists []. by rewrite !app_nil_r.
Qed.

Lemma uniform_throw {A} e : uniform env (@throw A e).
Proof.
  intros st1 st2 H. split; [done|]. split; [done|].
  exists []. by rewrite !app_nil_r.
Qed.

Lemma uniform_get {A} (f : state → A) :
  (∀ st1 st2, memory st1 = memory st2 → f st1 = f st2) →
  uniform env (get f).
Proof.
  intros Hf st1 st2 H. split; [simpl; f_equal; apply Hf, H|].
  split; [done|]. exists []. by rewrite !app_nil_r.
Qed.

Lemma uniform_modify f :
  (∀ st1 st2, memory st1 = memory st2 → memory (f st1) = memory (f st2)) →
  (∀ st, history (f st) = history st) →
  uniform env (modify f).
Proof.
  intros Hf Hh st1 st2 [Hm He]. simpl. split; [done|]. split.
  - split; [by apply Hf|]. intros evs R c. rewrite !Hh. apply He.
  - exists []. by rewrite !Hh, !app_nil_r.
Qed.

Lemma uniform_ext {R} (c : call R) : uniform env (ext env c).
Proof.
  intros st1 st2 [Hm He]. unfold ext.
  pose proof (He [] R c) as Hanswer. rewrite !app_nil_r in Hanswer.
  rewrite Hanswer. simpl. split; [done|]. split.
  - split; [by destruct st1, st2|].
    intros evs R' c'. simpl. rewrite <- !app_assoc. apply He.
  - eexists. split; reflexivity.
Qed.

Lemma uniform_bind {A B} (m : M A) (k : A → M B) :
  uniform env m → (∀ a, uniform env (k a)) → uniform env (bind m k).
Proof.
  intros Hm Hk st1 st2 H.
  destruct (Hm st1 st2 H) as (Hr & Ha & evs & H1 & H2). unfold bind.
  destruct (m st1) as [s1 [e1|a1]], (m st2) as [s2 [e2|a2]];
    simpl in *; try discriminate.
  - injection Hr as ->. eauto.
  - injection Hr as ->.
    destruct (Hk a2 s1 s2 Ha) as (Hr' & Ha' & evs' & H1' & H2').
    split; [done|]. split; [done|].
    exists (evs ++ evs'). by rewrite H1', H2', H1, H2, !app_assoc.
Qed.

Lemma uniform_for_each {A} (f : A → M unit) l :
  (∀ x, uniform env (f x)) → uniform env (for_each f l).
Proof.
  intros Hf. induction l as [|x l IH]; simpl.
  - apply uniform_ret.
  - by apply uniform_bind.
Qed.

End Uniform.

Ltac uniform_step :=
  first
    [ apply uniform_ret
    | apply uniform_throw
    | apply uniform_get; intros [] [] Hfields; unfold memory in *;
      simpl in *; injection Hfields; intros; subst; reflexivity
    | apply uniform_ext
    | apply uniform_modify;
      [ intros [] [] Hfields; unfold memory in *; simpl in *;
        injection Hfields; intros; subst; reflexivity
      | intros []; reflexivity ]
    | apply uniform_for_each; intros
    | apply uniform_bind; [|intros]
    | match goal with
      | |- uniform _ (match ?x with _ => _ end) => destruct x
      end ].

Lemma perform_uniform (env : environment) op : uniform env (perform env op).
Proof.
  destruct op; simpl;
    unfold connectedCallback, disconnectedCallback, super_disconnectedCallback,
      attributeChangedCallback, setStore, subscribeToStore, updateData,
      unsubscribeFromStore, unsubscribeFromAllStores, assign_data, render,
      buildStylesheets, selector, appendChild, on, run_remover, run_callback,
      run_task, rendered_task, dispatch, debug_log_task;
    repeat uniform_step.
Qed.

(** * The claims *)

Section Claims.

Variable env : environment.

(** C1.  When the element is torn down, [disconnectedCallback] either runs to
    its end or stops at the exception of a listener remover or of an
    [unsubscribe] (the last call it made).  When it runs to its end, every
    entry of the subscription map has had its handle's [unsubscribe] called
    during the teardown, and the subscription map is left empty. *)
Theorem disconnectedCallback_unsubscribes_every_entry (st : state) :
  let st' := (disconnectedCallback env st).1 in
  let result := (disconnectedCallback env st).2 in
  ∃ evs,
    history st' = history st ++ evs ∧
    (result = inr tt →
       (∀ k h, subscriptions st !! k = Some h →
               Event (Unsubscribe h) (inr tt) ∈ evs) ∧
       subscriptions st' = ∅) ∧
    (∀ e, result = inl e → ∃ ev, last evs = Some ev ∧ raised e ev).
Proof.
  intros st' result.
  destruct (disconnectedCallback_relays env st) as (evs & Hevs & Hout).
  fold st' in Hevs. fold result in Hout.
  exists evs. split; [done|]. split.
  - intros Hok. subst st' result.
    destruct (disconnectedCallback env st) as [st2 r] eqn:Hrun. simpl in *.
    subst r. unfold disconnectedCallback in Hrun.
    apply bind_inr in Hrun as (st1 & [] & Hsuper & Hall).
    unfold super_disconnectedCallback, run_remover in Hsuper.
    rewrite step_get in Hsuper.
    apply for_each_ext_inr in Hsuper as [Hh1 Hm1].
    unfold unsubscribeFromAllStores in Hall.
    rewrite step_get in Hall. simpl in Hall.
    apply bind_inr in Hall as (st3 & [] & Hloop & Hreset).
    apply for_each_ext_inr in Hloop as [Hh3 Hm3].
    injection Hreset as <-. simpl. split; [|done].
    intros k h Hkh.
    assert (subscriptions st1 = subscriptions st) as Hsubs
      by (by injection Hm1).
    simpl in Hevs.
    rewrite Hh3, Hh1, <- app_assoc in Hevs. apply app_inv_head in Hevs.
    subst evs. apply elem_of_app. right.
    apply (list_elem_of_fmap_2 (λ x, Event (Unsubscribe x) (inr tt))).
    apply (list_elem_of_fmap_2' snd _ (k, h)); [|done].
    apply elem_of_map_to_list. by rewrite Hsubs.
  - intros e He. rewrite He in Hout.
    by destruct (outcome_inl_last _ _ _ Hout).
Qed.


(** C3, amended.  Take an element made by the constructor under the tag
    [tag], and let any operations run on it, failed ones included.  Then every
    entry of its subscription map holds the handle that the latest [subscribe]
    call filed under its key returned; and the key is the name of that call's
    request or, for a request without a name, the tag name with its first
    hyphen removed. *)
Theorem subscriptions_hold_returned_handles
    (tag : string) (debug : bool) (sheets : option (gmap string value))
    (past : list event) (p : option params) (ops : list operation) :
  let made := (constructor env p (allocate tag debug sheets past)).1 in
  let st := perform_all env ops made in
  ∀ key h,
    subscriptions st !! key = Some h →
    last (handles_filed (subscription_key tag) key (history st)) = Some h ∧
    ∃ s request,
      Event (Subscribe s request) (inr h) ∈ history st ∧
      key = name_or (sub_name request) (replace "-" "" tag).
Proof.
  intros made st key h Hkey.
  assert (well_kept tag made) as Hmade.
  { split.
    - assert (keeps tagName (constructor env p)) as Hkeep
        by (unfold constructor, super_constructor, setShadowRoot;
            repeat keep_step).
      subst made. by rewrite Hkeep.
    - intros k h0 Hk.
      assert (subscriptions made = ∅) as Hempty.
      { subst made. unfold constructor.
        destruct (bind _ _ _) as [st1 [e|[]]] eqn:Hrun; simpl.
        - apply bind_inl in Hrun as [Hrun|(st2 & [] & _ & Hrun)].
          + assert (keeps subscriptions (super_constructor env p)) as Hkeep
              by (unfold super_constructor, setShadowRoot; repeat keep_step).
            specialize (Hkeep (allocate tag debug sheets past)).
            by rewrite Hrun in Hkeep.
          + done.
        - by apply constructor_inr in Hrun as (_ & ? & _). }
      by rewrite Hempty in Hk. }
  pose proof (perform_all_preserves env tag ops made Hmade) as [_ Hbook].
  fold st in Hbook. specialize (Hbook key h Hkey).
  split; [done|]. by apply handles_filed_last in Hbook.
Qed.

(** C4.  A call of [subscribeToStore] that returns has made exactly these
    calls to the store library, in this order: [unsubscribe] on the handle
    already filed under the key, if there is one; the lookup [Store(store)];
    [subscribe] on the store found, with the element's [updateData(name)]
    callback and the descriptor's path, filters and name; [Data(store)]; and
    [getDataFromPath] on that data.  The handle is filed under the key.  The
    extracted value is written to the data at once: under the name when the
    name is non-empty (the data being an object), as the whole data
    otherwise.  Whatever follows is the rendering asked for by [dorender],
    which makes no call to the store. *)
Theorem subscribeToStore_uses_store_api
    (d : descriptor) (dorender : bool) (st st' : state) :
  subscribeToStore env d dorender st = (st', inr tt) →
  let key := subscription_key (tagName st) (name d) in
  ∃ s h whole v rendering,
    history st' =
      history st
      ++ match subscriptions st !! key with
         | Some old => [Event (Unsubscribe old) (inr tt)]
         | None => []
         end
      ++ [Event (Store (store d)) (inr s);
          Event (Subscribe s (Subscription (UpdateData (name d))
                                (storePath d) (just d) (not_ d) (name d)))
                (inr h);
          Event (Data (store d)) (inr whole);
          Event (GetDataFromPath
                   (PathQuery (storePath d) (just d) (not_ d) whole))
                (inr v)]
      ++ rendering ∧
    Forall (λ ev, store_call ev = false) rendering ∧
    (dorender = false → rendering = []) ∧
    subscriptions st' = <[key := h]> (subscriptions st) ∧
    match name d with
    | Some n =>
        if String.eqb n "" then data st' = v
        else ∃ props, data st = VObject props ∧
                      data st' = VObject (<[n := v]> props)
    | None => data st' = v
    end.
Proof.
  intros Hrun key. unfold subscribeToStore in Hrun.
  rewrite step_get in Hrun. fold key in Hrun.
  unfold unsubscribeFromStore in Hrun.
  rewrite step_bind, step_get in Hrun.
  (* under [__proto__] the call does not return *)
  assert (String.eqb key "__proto__" = false) as Hplain.
  { destruct (String.eqb key "__proto__") eqn:Hproto; [|done].
    unfold subscription_under in Hrun. rewrite Hproto in Hrun.
    by rewrite step_throw in Hrun. }
  assert (∀ n, name d = Some n → String.eqb n "" = false →
               String.eqb n "__proto__" = false) as Hname.
  { intros n Hn Hfull. subst key.
    unfold subscription_key, name_or in Hplain.
    by rewrite Hn, Hfull in Hplain. }
  unfold subscription_under, get_property in Hrun. rewrite Hplain in Hrun.
  (* the rendering at the end *)
  assert (∀ st0 st1, (if dorender then render env ;; ret tt else ret tt) st0
                     = (st1, inr tt) →
            ∃ rendering, history st1 = history st0 ++ rendering ∧
              Forall (λ ev, store_call ev = false) rendering ∧
              (dorender = false → rendering = []) ∧
              subscriptions st1 = subscriptions st0 ∧ data st1 = data st0)
    as Hrender.
  { intros st0 st1 H. destruct dorender.
    - destruct (render_emits_no_store_call env st0) as (evs & Hevs & Hall).
      pose proof (render_keeps_subscriptions env st0) as Hs.
      pose proof (render_keeps_data env st0) as Hd.
      apply bind_inr in H as (st2 & w & Hr & [= <-]).
      rewrite Hr in *. simpl in *. exists evs. done.
    - injection H as <-. exists []. by rewrite app_nil_r. }
  (* the assignment of the extracted value *)
  assert (∀ v st0 st1,
            ((if name_truthy (name d)
              then assign_data (property_key (name d)) v
              else modify (set_data v)) ;;
             if dorender then render env ;; ret tt else ret tt) st0
            = (st1, inr tt) →
            ∃ rendering, history st1 = history st0 ++ rendering ∧
              Forall (λ ev, store_call ev = false) rendering ∧
              (dorender = false → rendering = []) ∧
              subscriptions st1 = subscriptions st0 ∧
              match name d with
              | Some n =>
                  if String.eqb n "" then data st1 = v
                  else ∃ props, data st0 = VObject props ∧
                                data st1 = VObject (<[n := v]> props)
              | None => data st1 = v
              end) as Hassign.
  { intros v st0 st1 H.
    apply bind_inr in H as (st2 & [] & Hwrite & H).
    apply Hrender in H as (rendering & Hh & Hall & Hnil & Hs & Hd).
    exists rendering.
    destruct (name d) as [n|]; simpl in *.
    - destruct (String.eqb n "") eqn:Hfull; simpl in *.
      + injection Hwrite as <-. rewrite Hd. done.
      + unfold assign_data, set_property in Hwrite.
        rewrite step_get, (Hname n eq_refl Hfull) in Hwrite.
        destruct (data st0) as [| | | | |props]; simpl in Hwrite; try done.
        injection Hwrite as <-. rewrite Hd. simpl in *. eauto 10.
    - injection Hwrite as <-. rewrite Hd. done. }
  destruct (subscriptions st !! key) as [old|] eqn:Hkey.
  - step_in Hrun. destruct a. apply Hassign in Hrun
      as (rendering & Hh & Hall & Hnil & Hs & Hd).
    do 5 eexists. rewrite Hh, Hs. simpl. rewrite <- !app_assoc. simpl.
    repeat split; try done.
  - destruct (inherited key); [by rewrite step_throw in Hrun|].
    step_in Hrun. apply Hassign in Hrun
      as (rendering & Hh & Hall & Hnil & Hs & Hd).
    do 5 eexists. rewrite Hh, Hs. simpl. rewrite <- !app_assoc. simpl.
    repeat split; try done.
Qed.



(** C7.  No operation catches or rewrites an exception.  Whatever call into
    the store library, the renderer, the browser or a hook raises [e], the
    operation stops right there (that call is the last one it made) and its
    own exception is [e].  Conversely an operation only fails with the
    exception of its last call, or with a TypeError of the engine itself (a
    property access on a value that is not an object, a call of a method
    that is not there). *)
Theorem exceptions_pass_unchanged (op : operation) (st : state) :
  let st' := (perform env op st).1 in
  let result := (perform env op st).2 in
  ∃ evs,
    history st' = history st ++ evs ∧
    (∀ ev e, ev ∈ evs → raised e ev → result = inl e ∧ last evs = Some ev) ∧
    (∀ e, result = inl e →
          (∃ ev, last evs = Some ev ∧ raised e ev) ∨ engine_error e).
Proof.
  intros st' result.
  destruct (perform_propagates env op st) as (evs & Hevs & Hout).
  fold st' in Hevs. fold result in Hout.
  exists evs. split; [done|]. split.
  - intros ev e Hin Hraised.
    assert (∀ l, Forall succeeded l → ev ∈ l → False) as Hno.
    { intros l Hall Hl. rewrite Forall_forall in Hall.
      specialize (Hall _ Hl). by destruct ev as [R c [?|?]]. }
    inversion Hout as [l a Hall | l ev' e' Hall Hr' | l e' Hall Heng]; subst.
    + destruct (Hno _ Hall Hin).
    + apply elem_of_app in Hin as [Hin|Hin]; [destruct (Hno _ Hall Hin)|].
      apply list_elem_of_singleton in Hin as ->.
      rewrite last_snoc. destruct ev' as [R c [e0|?]]; simpl in *; [|done].
      by subst.
    + destruct (Hno _ Hall Hin).
  - intros e He. rewrite He in Hout. by apply outcome_inl_last in Hout.
Qed.

(** C8, amended.  The key of a call of [subscribeToStore] is the name of
    the descriptor or, without a name, the tag name less its first hyphen.
    When that key already has an entry, the first thing the call does is to
    call [unsubscribe] on the handle stored there.  If that call throws,
    nothing else happens and the map is as before.  Otherwise either a later
    call throws before a new handle has come back, and the map is as before,
    or the store is looked up and subscribed to after the old handle was
    unsubscribed, and the handle that [subscribe] returns replaces the old
    one under the same key.  (The map of an element has no entry under
    [__proto__], which an assignment cannot make.) *)
Theorem subscribeToStore_unsubscribes_previous
    (d : descriptor) (dorender : bool) (st : state) (old : handle) :
  let key := subscription_key (tagName st) (name d) in
  let st' := (subscribeToStore env d dorender st).1 in
  let result := (subscribeToStore env d dorender st).2 in
  key ≠ "__proto__" →
  subscriptions st !! key = Some old →
  ∃ answer rest,
    history st' = history st ++ Event (Unsubscribe old) answer :: rest ∧
    match answer with
    | inl e =>
        rest = [] ∧ subscriptions st' = subscriptions st ∧ result = inl e
    | inr _ =>
        (subscriptions st' = subscriptions st ∧ ∃ e, result = inl e) ∨
        ∃ s new rest',
          rest = Event (Store (store d)) (inr s)
                 :: Event (Subscribe s (Subscription (UpdateData (name d))
                                          (storePath d) (just d) (not_ d)
                                          (name d)))
                          (inr new)
                 :: rest' ∧
          subscriptions st' = <[key := new]> (subscriptions st)
    end.
Proof.
  intros key st' result Hplain Hold. subst st' result.
  unfold subscribeToStore.
  rewrite step_get. fold key. unfold unsubscribeFromStore.
  rewrite step_bind, step_get, (subscription_under_Some _ _ _ Hplain Hold).
  rewrite step_ext.
  destruct (env unit (history st) (Unsubscribe old)) as [e|[]].
  { exists (inl e), []. simpl. auto. }
  exists (inr tt). rewrite step_ext.
  destruct (env store_object _ (Store (store d))) as [e|s].
  { eexists. simpl. rewrite <- app_assoc.
    split; [reflexivity | left; eauto]. }
  rewrite step_ext.
  destruct (env handle _ (Subscribe s _)) as [e|new].
  { eexists. simpl. rewrite <- !app_assoc.
    split; [reflexivity | left; eauto]. }
  rewrite step_get, step_modify.
  match goal with
  | |- context [bind ?m ?k ?s] => set (tail := bind m k); set (st3 := s)
  end.
  assert (keeps subscriptions tail) as Hkeep by (subst tail; repeat keep_step).
  assert (passes engine_error tail) as Hpass by (subst tail; repeat pass_step).
  destruct (passes_grows _ _ Hpass st3) as (evs & Hevs).
  rewrite Hevs, Hkeep. subst st3. simpl. eexists.
  split; [rewrite <- !app_assoc; simpl; reflexivity|].
  right. do 3 eexists. split; reflexivity.
Qed.


End Claims.

(** ** The model on sample elements *)

(** The tag name loses its first hyphen only. *)
Example replace_first_hyphen :
  replace "-" "" "MY-BIG-ELEMENT" = "MYBIG-ELEMENT".
Proof. reflexivity. Qed.

(** In debug mode the callback of a store update ends by deferring the log
    message; the render before it was made within the step. *)
Example debug_update_defers_the_log :
  let st := (debug true my_element).1 in
  emitted (updateData plain None (VNumber 1)) st
  = [Event BeforeUpdate (inr tt);
     Event PreRenderCheck (inr true);
     Event BeforeRender (inr tt);
     Event Template (inr None);
     Event Html_empty (inr (TemplateResult 0));
     Event (RenderTemplate (TemplateResult 0) Host) (inr tt);
     Event (SetTimeout TaskRendered (Some 200)) (inr tt);
     Event (SetTimeout TaskDebugLog (Some 1100)) (inr tt)].
Proof. vm_compute. reflexivity. Qed.

(** An element with one stylesheet links it on its first render. *)
Example render_links_the_stylesheet :
  let sheets : gmap string value := {["main" := VString "/main.css"]} in
  let made := create plain "MY-ELEMENT"
                (Some (Params None None (Some ["main"]))) in
  let st := (setStylesheets sheets made).1 in
  drop 5 (emitted (render plain) st)
  = [Event (QuerySelector (ShadowRoot (Node 1)) "link") (inr None);
     Event (CreateElement "link") (inr (Node 9));
     Event (SetAttribute (Node 9) "rel" (Value (VString "stylesheet")))
           (inr tt);
     Event (SetAttribute (Node 9) "href" (Value (VString "/main.css")))
           (inr tt);
     Event (AppendChild (ShadowRoot (Node 1)) (Node 9)) (inr tt);
     Event (SetTimeout TaskRendered (Some 200)) (inr tt)].
Proof. vm_compute. reflexivity. Qed.

(** An element with a closed shadow tree has [null] for its root: its
    render hands [null] to the renderer and then fails on the lookup of a
    [link] element. *)
Example render_on_a_closed_root :
  let made := create plain "MY-ELEMENT"
                (Some (Params (Some "closed") None None)) in
  root made = NullRoot ∧
  drop 4 (emitted (render plain) made)
  = [Event (RenderTemplate (TemplateResult 0) NullRoot) (inr tt)] ∧
  (render plain made).2 = inl (TypeError_read "querySelector").
Proof. vm_compute. done. Qed.

(** A named subscription on an element whose data a nameless one replaced
    by a number: the assignment is a TypeError. *)
Example named_update_on_a_number :
  let st := (updateData plain None (VNumber 1) my_element).1 in
  (updateData plain (Some "user") (VNumber 2) st).2
  = inl (TypeError_set (VNumber 1) "user").
Proof. vm_compute. reflexivity. Qed.

(** ** The claims on sample elements *)

(** C1 on an element with two subscriptions and a listener: the teardown
    runs to its end. *)
Lemma disconnectedCallback_unsubscribes_every_entry_witness :
  let st' := (disconnectedCallback plain subscribed_element).1 in
  let result := (disconnectedCallback plain subscribed_element).2 in
  (size (subscriptions subscribed_element) = 2 ∧ result = inr tt) ∧
  ∃ evs,
    history st' = history subscribed_element ++ evs ∧
    (result = inr tt →
       (∀ k h, subscriptions subscribed_element !! k = Some h →
               Event (Unsubscribe h) (inr tt) ∈ evs) ∧
       subscriptions st' = ∅) ∧
    (∀ e, result = inl e → ∃ ev, last evs = Some ev ∧ raised e ev).
Proof.
  split; [split; vm_compute; reflexivity|].
  apply (disconnectedCallback_unsubscribes_every_entry plain subscribed_element).
Defined.


(** C3, amended, on an element that subscribed under the name [user]. *)
Lemma subscriptions_hold_returned_handles_witness :
  let st := perform_all plain [SubscribeToStore user_descriptor false]
              (constructor plain None (allocate "MY-ELEMENT" false None [])).1 in
  subscriptions st !! "user" = Some (Handle 1) ∧
  last (handles_filed (subscription_key "MY-ELEMENT") "user" (history st))
    = Some (Handle 1) ∧
  ∃ s request,
    Event (Subscribe s request) (inr (Handle 1)) ∈ history st ∧
    "user" = name_or (sub_name request) (replace "-" "" "MY-ELEMENT").
Proof.
  intros st. split; [vm_compute; reflexivity|].
  apply (subscriptions_hold_returned_handles plain "MY-ELEMENT" false None []
           None [SubscribeToStore user_descriptor false] "user" (Handle 1)).
  vm_compute. reflexivity.
Defined.

(** C4 on a freshly made element that subscribes under the name [user] and
    asks for a render. *)
Lemma subscribeToStore_uses_store_api_witness :
  let run := subscribeToStore plain user_descriptor true my_element in
  run.2 = inr tt ∧
  ∃ s h whole v rendering,
    history run.1 =
      history my_element
      ++ match subscriptions my_element !! "user" with
         | Some old => [Event (Unsubscribe old) (inr tt)]
         | None => []
         end
      ++ [Event (Store (VString "app")) (inr s);
          Event (Subscribe s (Subscription (UpdateData (Some "user"))
                                (VString "user") VUndefined VUndefined
                                (Some "user")))
                (inr h);
          Event (Data (VString "app")) (inr whole);
          Event (GetDataFromPath
                   (PathQuery (VString "user") VUndefined VUndefined whole))
                (inr v)]
      ++ rendering ∧
    Forall (λ ev, store_call ev = false) rendering ∧
    (true = false → rendering = []) ∧
    subscriptions run.1 = <["user" := h]> (subscriptions my_element) ∧
    ∃ props, data my_element = VObject props ∧
             data run.1 = VObject (<["user" := v]> props).
Proof.
  intros run. split; [vm_compute; reflexivity|].
  apply (subscribeToStore_uses_store_api plain user_descriptor true
           my_element run.1).
  vm_compute. reflexivity.
Defined.



(** C7 on an element whose handle throws when unsubscribed: the teardown
    fails with that very exception. *)
Lemma exceptions_pass_unchanged_witness :
  let host := stubborn 1 (VString "gone") in
  let st' := (perform host DisconnectedCallback stuck_element).1 in
  let result := (perform host DisconnectedCallback stuck_element).2 in
  result = inl (Thrown (VString "gone")) ∧
  ∃ evs,
    history st' = history stuck_element ++ evs ∧
    (∀ ev e, ev ∈ evs → raised e ev → result = inl e ∧ last evs = Some ev) ∧
    (∀ e, result = inl e →
          (∃ ev, last evs = Some ev ∧ raised e ev) ∨ engine_error e).
Proof.
  intros host st' result. split; [vm_compute; reflexivity|].
  apply (exceptions_pass_unchanged host DisconnectedCallback stuck_element).
Defined.

(** C8, amended, on an element that subscribes under the name [user] a
    second time. *)
Lemma subscribeToStore_unsubscribes_previous_witness :
  let st := perform_all plain [SubscribeToStore user_descriptor false]
              my_element in
  let st' := (subscribeToStore plain user_descriptor false st).1 in
  let result := (subscribeToStore plain user_descriptor false st).2 in
  (subscription_key (tagName st) (name user_descriptor) = "user" ∧
   subscriptions st !! "user" = Some (Handle 1) ∧
   subscriptions st' !! "user" = Some (Handle 6)) ∧
  ∃ answer rest,
    history st' = history st ++ Event (Unsubscribe (Handle 1)) answer :: rest ∧
    match answer with
    | inl e =>
        rest = [] ∧ subscriptions st' = subscriptions st ∧ result = inl e
    | inr _ =>
        (subscriptions st' = subscriptions st ∧ ∃ e, result = inl e) ∨
        ∃ s new rest',
          rest = Event (Store (VString "app")) (inr s)
                 :: Event (Subscribe s (Subscription (UpdateData (Some "user"))
                                          (VString "user") VUndefined
                                          VUndefined (Some "user")))
                          (inr new)
                 :: rest' ∧
          subscriptions st' = <["user" := new]> (subscriptions st)
    end.
Proof.
  intros st st' result. split; [repeat split; vm_compute; reflexivity|].
  apply (subscribeToStore_unsubscribes_previous plain user_descriptor false st
           (Handle 1)).
  - discriminate.
  - vm_compute. reflexivity.
Defined.

(** C9 fails on the code for a name that the subscription map inherits: a
    freshly made element has no entry at all, yet unsubscribing [constructor]
    is no no-op, it is a TypeError (the guard finds the inherited member, and
    that has no [unsubscribe]).  For a name that is not inherited, such as
    [user], the call does nothing. *)
Lemma unsubscribeFromStore_constructor_throws :
  subscriptions my_element = ∅ ∧
  unsubscribeFromStore plain "constructor" my_element
  = (my_element, inl (TypeError_call "constructor" "unsubscribe")) ∧
  unsubscribeFromStore plain "user" my_element = (my_element, inr tt).
Proof.
  split; [reflexivity|]. split.
  - by apply unsubscribeFromStore_inherited.
  - by apply unsubscribeFromStore_missing.
Qed.





(** C3 as the spec words it fails: a freshly made [MY-ELEMENT] that subscribes
    to a store without a name files the handle under [MYELEMENT], the tag name
    without its hyphen, and has no entry under the tag name; no [subscribe]
    call of its history was filed under [MYELEMENT] if keys were the name or
    the tag name. *)
Lemma nameless_key_is_not_the_tag_name :
  let st := perform_all plain [SubscribeToStore nameless_descriptor false]
              my_element in
  tagName st = "MY-ELEMENT" ∧
  subscriptions st !! "MYELEMENT" = Some (Handle 1) ∧
  subscriptions st !! "MY-ELEMENT" = None ∧
  handles_filed (claimed_subscription_key "MY-ELEMENT") "MYELEMENT" (history st)
    = [] ∧
  ¬ bookkeeping (claimed_subscription_key "MY-ELEMENT") st.
Proof.
  intros st.
  assert (subscriptions st !! "MYELEMENT" = Some (Handle 1)) as Hentry
    by (vm_compute; reflexivity).
  repeat split; try (vm_compute; reflexivity).
  intros Hbook. specialize (Hbook _ _ Hentry).
  vm_compute in Hbook. discriminate Hbook.
Qed.

(** C8 as the spec words it fails: [MY-ELEMENT] holds an entry under its tag
    name, the key the spec gives a call without a name.  Such a call
    unsubscribes nothing: it makes its four calls to the store, leaves the
    entry under the tag name as it is, and files the new handle under
    [MYELEMENT]. *)
Lemma nameless_call_spares_the_tag_entry :
  let run := subscribeToStore plain nameless_descriptor false tagged_element in
  claimed_subscription_key (tagName tagged_element) (name nameless_descriptor)
  = "MY-ELEMENT" ∧
  subscriptions tagged_element !! "MY-ELEMENT" = Some (Handle 1) ∧
  run.2 = inr tt ∧
  since tagged_element run.1
  = [Event (Store (VString "app")) (inr (StoreObject 0));
     Event (Subscribe (StoreObject 0)
              (Subscription (UpdateData None) VUndefined VUndefined VUndefined
                 None))
           (inr (Handle 5));
     Event (Data (VString "app")) (inr (VObject ∅));
     Event (GetDataFromPath (PathQuery VUndefined VUndefined VUndefined
                               (VObject ∅)))
           (inr (VObject ∅))] ∧
  subscriptions run.1 !! "MY-ELEMENT" = Some (Handle 1) ∧
  subscriptions run.1 !! "MYELEMENT" = Some (Handle 5).
Proof. repeat split; vm_compute; reflexivity. Qed.


(** * Further properties of the code *)

(** ** Invariants of a run *)

Section Invariants.

Variable env : environment.
Variable I : state → Prop.

Lemma inv_ret {A} (a : A) : preserves I (ret a).
Proof. by intros st. Qed.

Lemma inv_get {A} (f : state → A) : preserves I (get f).
Proof. by intros st. Qed.

Lemma inv_throw {A} e : preserves I (@throw A e).
Proof. by intros st. Qed.

Lemma inv_modify f : (∀ st, I st → I (f st)) → preserves I (modify f).
Proof. intros Hf st. apply Hf. Qed.

Lemma inv_ext {R} (c : call R) :
  (∀ a st, I st → I (record (Event c a) st)) → preserves I (ext env c).
Proof. intros Hc st HI. by apply Hc. Qed.

Lemma inv_bind {A B} (m : M A) (k : A → M B) :
  preserves I m → (∀ a, preserves I (k a)) → preserves I (bind m k).
Proof.
  intros Hm Hk st HI. unfold bind. specialize (Hm st HI).
  destruct (m st) as [st1 [e|a]]; simpl in *; [done|]. by apply Hk.
Qed.

Lemma inv_for_each {A} (f : A → M unit) l :
  (∀ x, preserves I (f x)) → preserves I (for_each f l).
Proof.
  intros Hf. induction l as [|x l IH]; simpl.
  - apply inv_ret.
  - by apply inv_bind.
Qed.

Lemma inv_perform_all ops :
  (∀ op, preserves I (perform env op)) →
  ∀ st, I st → I (perform_all env ops st).
Proof.
  intros Hop. induction ops as [|op ops IH]; intros st HI; simpl; [done|].
  apply IH. by apply Hop.
Qed.

End Invariants.

(** One step through a program for an invariant [I]: [record_tac] shows that
    a recorded event keeps [I], [modify_tac] that an assignment does. *)
Ltac inv_step record_tac modify_tac :=
  first
    [ solve [auto]
    | apply inv_ret
    | apply inv_get
    | apply inv_throw
    | apply inv_ext; intros; record_tac
    | apply inv_modify; intros; modify_tac
    | apply inv_for_each; intros
    | apply inv_bind; [|intros]
    | match goal with
      | |- preserves _ (match ?x with _ => _ end) => destruct x
      end ].

(** ** Runs, once more *)

Lemma since_app st st' evs :
  history st' = history st ++ evs → since st st' = evs.
Proof. unfold since. intros ->. by rewrite drop_app_length. Qed.

Lemma emitted_since {A} (m : M A) st : emitted m st = since st (m st).1.
Proof. done. Qed.

Lemma perform_all_grows (env : environment) ops st :
  ∃ evs, history (perform_all env ops st) = history st ++ evs.
Proof.
  revert st. induction ops as [|op ops IH]; intros st; simpl.
  - exists []. by rewrite app_nil_r.
  - destruct (passes_grows _ _ (perform_propagates env op) st) as (l1 & H1).
    destruct (IH (perform env op st).1) as (l2 & H2).
    exists (l1 ++ l2). by rewrite H2, H1, app_assoc.
Qed.

(** A teardown that ran to its end. *)
Lemma disconnectedCallback_inr (env : environment) st st' :
  disconnectedCallback env st = (st', inr tt) →
  history st' =
    history st ++ map removal (events st)
    ++ map unsubscription (map_to_list (subscriptions st)).*2 ∧
  st' = set_subscriptions ∅
          (State (tagName st) (root st) (events st) (rendered st)
             (stylesheets st) (styles st) (data st) (subscriptions st)
             (DEBUG st) (STYLESHEETS st) (history st')).
Proof.
  intros Hrun. unfold disconnectedCallback in Hrun.
  apply bind_inr in Hrun as (st1 & [] & Hsuper & Hall).
  unfold super_disconnectedCallback, run_remover in Hsuper.
  rewrite step_get in Hsuper.
  apply (for_each_ext_inr env
           (λ off, RemoveEventListener (off_target off) (off_event off)
                     (off_listener off))) in Hsuper as [Hh1 Hm1].
  unfold unsubscribeFromAllStores in Hall.
  rewrite step_get in Hall. simpl in Hall.
  apply bind_inr in Hall as (st3 & [] & Hloop & Hreset).
  apply for_each_ext_inr in Hloop as [Hh3 Hm3].
  injection Hreset as <-.
  assert (subscriptions st1 = subscriptions st) as Hsubs
    by (by injection Hm1).
  split.
  - simpl. rewrite Hh3, Hh1, Hsubs, <- app_assoc. done.
  - rewrite Hm1 in Hm3. destruct st3, st. simpl in *.
    injection Hm3 as -> -> -> -> -> -> -> -> -> ->. done.
Qed.

(** ** The first render *)

Lemma first_render_kept_record st0 ev st :
  first_render_done ev = false →
  first_render_kept st0 st → first_render_kept st0 (record ev st).
Proof.
  intros Hev (evs & Hh & Hcount). exists (evs ++ [ev]). simpl.
  rewrite Hh, <- app_assoc. split; [done|].
  unfold first_renders in *. rewrite List.filter_app. simpl.
  by rewrite Hev, app_nil_r.
Qed.

Ltac first_render_step :=
  inv_step
    ltac:(apply first_render_kept_record; [reflexivity | assumption])
    ltac:(idtac; match goal with
          | H : first_render_kept _ ?st |- _ => destruct st; exact H
          end).

Lemma rendered_task_first_render (env : environment) st0 :
  preserves (first_render_kept st0) (rendered_task env).
Proof.
  intros st HI. unfold rendered_task. rewrite step_get.
  assert (preserves (first_render_kept st0)
            (ext env OnRender ;; dispatch env "rendered")) as Htail
    by (unfold dispatch; repeat first_render_step).
  destruct (rendered st) eqn:Hrendered; simpl.
  - rewrite step_ret. by apply Htail.
  - rewrite step_bind, step_ext.
    destruct (env unit (history st) OnFirstRender) as [e|[]].
    + by apply first_render_kept_record.
    + rewrite step_modify. apply Htail.
      destruct HI as (evs & Hh & Hcount).
      exists (evs ++ [Event OnFirstRender (inr tt)]). simpl.
      rewrite Hh, <- app_assoc. split; [done|].
      unfold first_renders in *. rewrite List.filter_app, length_app. simpl.
      rewrite Hrendered in Hcount. simpl in Hcount. lia.
Qed.

Lemma perform_first_render (env : environment) st0 op :
  preserves (first_render_kept st0) (perform env op).
Proof.
  pose proof (rendered_task_first_render env st0).
  destruct op; simpl;
    unfold connectedCallback, disconnectedCallback, super_disconnectedCallback,
      attributeChangedCallback, setStore, subscribeToStore, updateData,
      unsubscribeFromStore, unsubscribeFromAllStores, assign_data, render,
      buildStylesheets, on, run_remover, run_callback, run_task,
      debug_log_task;
    repeat first_render_step.
Qed.

(** X1.  Over any run of operations, [onFirstRender] returns at most once:
    it is called by the deferred notification of a render as long as the
    [rendered] flag is down, and the first call of it that returns raises the
    flag for good.  So once the flag is up no call of [onFirstRender] returns
    any more, and from a state with the flag down the calls that returned
    number one or none, according to the flag at the end. *)
Theorem onFirstRender_returns_once
    (env : environment) (ops : list operation) (st : state) :
  let st' := perform_all env ops st in
  (rendered st = true →
     rendered st' = true ∧ first_renders (since st st') = 0) ∧
  (rendered st = false →
     first_renders (since st st') = Nat.b2n (rendered st')).
Proof.
  intros st'.
  assert (first_render_kept st st') as (evs & Hh & Hcount).
  { apply (inv_perform_all env); [apply perform_first_render|].
    exists []. by rewrite app_nil_r. }
  rewrite (since_app _ _ _ Hh).
  split; intros Hflag; rewrite Hflag in Hcount; simpl in Hcount.
  - destruct (rendered st'); simpl in Hcount; [split; [done | lia] | lia].
  - lia.
Qed.

(** ** Listeners *)

Lemma listeners_kept_record st0 ev st :
  listener_added ev = None →
  listeners_kept st0 st → listeners_kept st0 (record ev st).
Proof.
  intros Hev (evs & Hh & Hevents). exists (evs ++ [ev]). simpl.
  rewrite Hh, <- app_assoc. split; [done|].
  unfold registered in *. rewrite omap_app. simpl.
  by rewrite Hev, app_nil_r.
Qed.

Ltac listeners_step :=
  inv_step
    ltac:(apply listeners_kept_record; [reflexivity | assumption])
    ltac:(idtac; match goal with
          | H : listeners_kept _ ?st |- _ => destruct st; exact H
          end).

Lemma on_listeners (env : environment) st0 type_ target fn :
  preserves (listeners_kept st0) (on env type_ target fn).
Proof.
  intros st HI. unfold on. rewrite step_ext.
  destruct (env unit (history st) (AddEventListener target type_ fn))
    as [e|[]].
  - by apply listeners_kept_record.
  - rewrite step_get, step_modify. simpl.
    destruct HI as (evs & Hh & Hevents).
    exists (evs ++ [Event (AddEventListener target type_ fn) (inr tt)]).
    simpl. rewrite Hh, <- app_assoc. split; [done|].
    unfold registered. rewrite omap_app. simpl.
    by rewrite Hevents, app_assoc.
Qed.

Lemma perform_listeners (env : environment) st0 op :
  preserves (listeners_kept st0) (perform env op).
Proof.
  pose proof (on_listeners env st0).
  destruct op; simpl;
    unfold connectedCallback, disconnectedCallback, super_disconnectedCallback,
      attributeChangedCallback, setStore, subscribeToStore, updateData,
      unsubscribeFromStore, unsubscribeFromAllStores, assign_data, render,
      buildStylesheets, run_remover, run_callback, run_task, rendered_task,
      dispatch, debug_log_task;
    repeat listeners_step.
Qed.

(** X2.  Every listener registered through [on] is removed when the element
    is torn down.  After any run of operations [this.events] holds, after
    what it held before, one remover for each [addEventListener] call that
    returned, in the order of the calls; and a teardown that runs to its end
    starts by calling [removeEventListener] with the target, event and
    function of each of them, in that order, before it makes its calls to
    the store. *)
Theorem listeners_are_removed_at_teardown
    (env : environment) (ops : list operation) (st st'' : state) :
  let st' := perform_all env ops st in
  disconnectedCallback env st' = (st'', inr tt) →
  events st' = events st ++ registered (since st st') ∧
  ∃ unsubscribing,
    since st' st'' = map removal (events st') ++ unsubscribing ∧
    Forall (λ ev, store_call ev = true) unsubscribing.
Proof.
  intros st' Hdown.
  assert (listeners_kept st st') as (evs & Hh & Hevents).
  { apply (inv_perform_all env); [apply perform_listeners|].
    exists []. by rewrite app_nil_r, app_nil_r. }
  rewrite (since_app _ _ _ Hh). split; [done|].
  apply disconnectedCallback_inr in Hdown as [Hdown _].
  rewrite (since_app _ _ _ Hdown).
  eexists. split; [reflexivity|].
  apply Forall_forall. intros ev Hev.
  apply list_elem_of_fmap in Hev as (h & -> & _). done.
Qed.

(** ** Subscriptions that were given up *)

(** X3.  [unsubscribeFromStore] calls the handle but leaves its entry in the
    subscription map.  So a handle that was unsubscribed by name is
    unsubscribed once more when the element is torn down. *)
Theorem unsubscribed_entry_stays
    (env : environment) (name : string) (h : handle) (st st1 st2 : state) :
  subscriptions st !! name = Some h →
  unsubscribeFromStore env name st = (st1, inr tt) →
  disconnectedCallback env st1 = (st2, inr tt) →
  since st st1 = [unsubscription h] ∧
  subscriptions st1 !! name = Some h ∧
  unsubscription h ∈ since st1 st2.
Proof.
  intros Hentry Hgone Hdown.
  unfold unsubscribeFromStore, subscription_under, get_property in Hgone.
  rewrite step_get, Hentry in Hgone.
  destruct (String.eqb name "__proto__"); [done|].
  apply ext_inr in Hgone as [_ ->].
  split; [|split].
  - apply since_app. done.
  - done.
  - apply disconnectedCallback_inr in Hdown as [Hdown _].
    rewrite (since_app _ _ _ Hdown). apply elem_of_app. right.
    apply list_elem_of_fmap_2.
    apply (list_elem_of_fmap_2' snd _ (name, h)); [|done].
    by apply elem_of_map_to_list.
Qed.

(** X4.  [unsubscribeFromAllStores] empties the subscription map only when
    every [unsubscribe] returned.  When one of them throws, the map is left
    exactly as it was, with the entries of the handles already unsubscribed
    among them.  When it returns, the map is empty and a second call does
    nothing at all. *)
Theorem unsubscribeFromAllStores_all_or_nothing
    (env : environment) (st : state) :
  let st' := (unsubscribeFromAllStores env st).1 in
  let result := (unsubscribeFromAllStores env st).2 in
  (∀ e, result = inl e → subscriptions st' = subscriptions st) ∧
  (result = inr tt →
     subscriptions st' = ∅ ∧ unsubscribeFromAllStores env st' = (st', inr tt)).
Proof.
  intros st' result. subst st' result.
  destruct (unsubscribeFromAllStores env st) as [st' result] eqn:Hrun.
  simpl. unfold unsubscribeFromAllStores in Hrun.
  rewrite step_get in Hrun. simpl in Hrun.
  split.
  - intros e ->.
    apply bind_inl in Hrun as [Hloop|(st1 & [] & _ & Hreset)]; [|done].
    assert (keeps subscriptions
              (for_each (λ sub, ext env (Unsubscribe sub))
                 (map_to_list (subscriptions st)).*2)) as Hkeep
      by repeat keep_step.
    specialize (Hkeep st). by rewrite Hloop in Hkeep.
  - intros ->.
    apply bind_inr in Hrun as (st1 & [] & _ & Hreset).
    injection Hreset as <-. split; [done|].
    unfold unsubscribeFromAllStores. rewrite step_get. simpl.
    rewrite map_to_list_empty. simpl. by destruct st1.
Qed.

(** X5.  An element that was torn down and is attached again gets no
    subscription back: [connectedCallback] only renders.  It makes no call
    to the store, the subscription map stays empty, and the data stays what
    it last was. *)
Theorem reconnecting_restores_no_subscription
    (env : environment) (st st1 : state) :
  disconnectedCallback env st = (st1, inr tt) →
  let st2 := (connectedCallback env st1).1 in
  subscriptions st2 = ∅ ∧
  data st2 = data st ∧
  Forall (λ ev, store_call ev = false) (emitted (connectedCallback env) st1).
Proof.
  intros Hdown st2.
  apply disconnectedCallback_inr in Hdown as [_ Hst1].
  assert (keeps memory (connectedCallback env)) as Hkeep
    by (unfold connectedCallback; repeat keep_step).
  specialize (Hkeep st1). fold st2 in Hkeep.
  assert (emits (λ ev, store_call ev = false) (connectedCallback env))
    as Hemits.
  { unfold connectedCallback. pose proof (render_emits_no_store_call env).
    repeat first [done | emit_step]. }
  destruct (Hemits st1) as (evs & Hevs & Hall).
  rewrite (emitted_app _ _ _ Hevs).
  injection Hkeep as _ _ _ _ _ _ Hdata Hsubs _ _.
  rewrite Hsubs, Hdata, Hst1. done.
Qed.

(** ** The check before a render *)

Lemma none_since_record P st0 ev st :
  P ev = false → none_since P st0 st → none_since P st0 (record ev st).
Proof.
  intros Hev (evs & Hh & Hall). exists (evs ++ [ev]). simpl.
  rewrite Hh, <- app_assoc. split; [done|].
  apply Forall_app. split; [done|]. by apply Forall_singleton.
Qed.

Lemma none_since_start P st : none_since P st st.
Proof. exists []. by rewrite app_nil_r. Qed.

Lemma none_since_Forall P st st' :
  none_since P st st' → Forall (λ ev, P ev = false) (since st st').
Proof. intros (evs & Hh & Hall). by rewrite (since_app _ _ _ Hh). Qed.

Ltac none_since_step :=
  inv_step
    ltac:(apply none_since_record; [reflexivity | assumption])
    ltac:(idtac; match goal with
          | H : none_since _ _ ?st |- _ => destruct st; exact H
          end).

Lemma render_refused (env : environment) st :
  env bool (history st) PreRenderCheck = inr false →
  render env st = (record (Event PreRenderCheck (inr false)) st, inr (VString EmptyString)).
Proof. intros Hgate. unfold render. by rewrite step_ext, Hgate. Qed.

Lemma perform_refused (env : environment) st0 op :
  (∀ past, env bool past PreRenderCheck = inr false) →
  preserves (none_since past_the_check st0) (perform env op).
Proof.
  intros Hgate.
  assert (preserves (none_since past_the_check st0) (render env)) as Hrender.
  { intros st HI. rewrite render_refused by apply Hgate.
    by apply none_since_record. }
  destruct op; simpl;
    unfold connectedCallback, disconnectedCallback, super_disconnectedCallback,
      attributeChangedCallback, setStore, subscribeToStore, updateData,
      unsubscribeFromStore, unsubscribeFromAllStores, assign_data,
      on, run_remover, run_callback, run_task, rendered_task,
      dispatch, debug_log_task;
    repeat none_since_step.
Qed.

(** X6.  An element whose [preRenderCheck] refuses is never rendered, whatever
    drives it: over any run of operations (attaching it, store updates,
    [setStore], deferred renders) the hooks [beforeRender] and [template] are
    not called, nothing is handed to the renderer, the document is neither
    searched nor changed for stylesheets, and no post-render notification is
    deferred, so [onFirstRender] and [onRender] never follow. *)
Theorem refused_check_stops_every_render
    (env : environment) (ops : list operation) (st : state) :
  (∀ past, env bool past PreRenderCheck = inr false) →
  Forall (λ ev, past_the_check ev = false) (since st (perform_all env ops st)).
Proof.
  intros Hgate. apply none_since_Forall.
  apply (inv_perform_all env); [|apply none_since_start].
  intros op. by apply perform_refused.
Qed.

(** ** Linking the stylesheets *)

Ltac settle_history :=
  simpl; rewrite <- ?app_assoc, ?drop_app_length; simpl.

(** The lookups and the appending, on a root that is there and on a root
    that is [null]. *)
Lemma step_selector (env : environment) {B} sel (k : option node → M B) st :
  root st ≠ NullRoot →
  bind (selector env sel) k st
  = bind (ext env (QuerySelector (root st) sel)) k st.
Proof.
  intros Hroot. unfold selector. rewrite step_bind, step_get.
  by destruct (root st).
Qed.

Lemma step_selector_null (env : environment) {B} sel
    (k : option node → M B) st :
  root st = NullRoot →
  bind (selector env sel) k st = (st, inl (TypeError_read "querySelector")).
Proof.
  intros Hroot. unfold selector. by rewrite step_bind, step_get, Hroot.
Qed.

Lemma step_appendChild (env : environment) {B} elm (k : unit → M B) st :
  root st ≠ NullRoot →
  bind (appendChild env elm) k st
  = bind (ext env (AppendChild (root st) elm)) k st.
Proof.
  intros Hroot. unfold appendChild. rewrite step_bind, step_get.
  by destruct (root st).
Qed.

(** X7.  Take an element with stylesheets named in the constructor's
    parameters, a root that is not [null], and no table given to
    [CustomElement.setStylesheets].  Its [buildStylesheets] (and so its
    [render]) returns only when the root already holds a [link] element, in
    which case the lookup is all it does.  Otherwise it stops at the first
    stylesheet: the lookup, [createElement] or the [rel] assignment threw,
    or else reading the table throws the [TypeError] of the engine, with the
    [link] element made but not appended.  No element is appended in any
    case. *)
Theorem buildStylesheets_needs_the_table
    (env : environment) (st : state) (sheet : string) (sheets : list string) :
  stylesheets st = Some (sheet :: sheets) →
  STYLESHEETS st = None →
  root st ≠ NullRoot →
  let calls := emitted (buildStylesheets env) st in
  let result := (buildStylesheets env st).2 in
  outcome (λ e, e = TypeError_read sheet) calls result ∧
  Forall (λ ev, appends ev = false) calls ∧
  (result = inr tt →
     ∃ link, calls = [Event (QuerySelector (root st) "link") (inr (Some link))]).
Proof.
  intros Hsheets Htable Hroot calls result. subst calls result.
  unfold emitted, buildStylesheets.
  rewrite step_get, Hsheets, step_selector, step_ext by done.
  destruct (env _ (history st) (QuerySelector (root st) "link"))
    as [e|[link|]].
  - settle_history. split; [|split; [|done]].
    + by apply (outcome_raised _ []).
    + by repeat constructor.
  - settle_history. split; [|split; [|eauto]].
    + apply outcome_value. by repeat constructor.
    + by repeat constructor.
  - simpl for_each. rewrite !step_bind, step_ext. simpl history.
    destruct (env _ _ (CreateElement "link")) as [e|elm].
    { settle_history. split; [|split; [|done]].
      - by apply (outcome_raised _ [_]); repeat constructor.
      - by repeat constructor. }
    rewrite !step_bind, step_ext. simpl history.
    destruct (env _ _ (SetAttribute elm "rel" _)) as [e|[]].
    { settle_history. split; [|split; [|done]].
      - by apply (outcome_raised _ [_; _]); repeat constructor.
      - by repeat constructor. }
    rewrite ?step_bind, step_get. simpl STYLESHEETS.
    rewrite Htable, step_throw.
    settle_history. split; [|split; [|done]].
    + by apply outcome_engine; repeat constructor.
    + by repeat constructor.
Qed.

(** One pass of the loop of [buildStylesheets], for a table that is set. *)
Lemma link_loop_inr (env : environment) table r sheets st st' :
  root st = r → r ≠ NullRoot → STYLESHEETS st = Some table →
  for_each (λ stylesheet,
    elm <- ext env (CreateElement "link") ;;
    ext env (SetAttribute elm "rel" (Value (VString "stylesheet"))) ;;
    table <- get STYLESHEETS ;;
    match table with
    | None => throw (TypeError_read stylesheet)
    | Some table =>
        ext env (SetAttribute elm "href" (table_entry table stylesheet)) ;;
        appendChild env elm
    end) sheets st = (st', inr tt) →
  ∃ elms,
    length elms = length sheets ∧
    history st' =
      history st ++ concat (zip_with (link_calls r table) sheets elms).
Proof.
  intros Hroot Hthere Htable. revert st Hroot Htable.
  induction sheets as [|sheet sheets IH]; intros st Hroot Htable Hrun.
  - injection Hrun as <-. exists []. by rewrite app_nil_r.
  - simpl for_each in Hrun. step_in Hrun.
    simpl STYLESHEETS in Hrun. rewrite Htable in Hrun. step_in Hrun.
    rewrite step_appendChild in Hrun by (simpl; by rewrite Hroot).
    simpl root in Hrun. step_in Hrun.
    apply IH in Hrun as (elms & Hlen & Hh); [|done..].
    exists (a :: elms). split; [simpl; by rewrite Hlen|].
    rewrite Hh. simpl. rewrite Hroot.
    destruct a0, a1, a2. by rewrite <- !app_assoc.
Qed.

(** X8.  With the table set, a [buildStylesheets] that returns has either
    found a [link] element under the root and done nothing more, or linked
    every stylesheet of the element, in the order of the list, with four
    calls each: a [link] element is made, its [rel] set to [stylesheet], its
    [href] set to what the read of the table under the stylesheet's name
    gives, and the element appended to the root.  That read gives the
    table's entry, or [undefined] when the table has none; it goes through
    the prototype chain, so under a name like [toString] and without an
    entry it gives the member of [Object.prototype].  So the links are built
    once, by the first render, and a stylesheet missing from the table is
    linked all the same. *)
Theorem buildStylesheets_links_in_order
    (env : environment) (st st' : state)
    (sheets : list string) (table : gmap string value) :
  stylesheets st = Some sheets →
  STYLESHEETS st = Some table →
  buildStylesheets env st = (st', inr tt) →
  root st ≠ NullRoot ∧
  ((∃ link,
      since st st'
      = [Event (QuerySelector (root st) "link") (inr (Some link))]) ∨
   (∃ elms,
      length elms = length sheets ∧
      since st st' =
        Event (QuerySelector (root st) "link") (inr None)
        :: concat (zip_with (link_calls (root st) table) sheets elms))).
Proof.
  intros Hsheets Htable Hrun. unfold buildStylesheets in Hrun.
  rewrite step_get, Hsheets in Hrun.
  assert (root st ≠ NullRoot) as Hroot.
  { intros Hnull. by rewrite step_selector_null in Hrun. }
  split; [done|].
  rewrite step_selector in Hrun by done. step_in Hrun.
  destruct a as [link|].
  - injection Hrun as <-. left. exists link. by apply since_app.
  - right. apply link_loop_inr with (table := table) (r := root st) in Hrun
      as (elms & Hlen & Hh); [|done..].
    exists elms. split; [done|]. apply since_app.
    rewrite Hh. simpl. by rewrite <- app_assoc.
Qed.

(** X15.  A closed shadow tree breaks rendering.  When the constructor is
    given parameters with a [shadowMode] other than [open] (for the browser,
    [closed]), [this.shadowRoot] is [null] and the root of the element is
    [null] from then on, whatever operations run.  Every render that passes
    its check then fails: [null] is what it hands the renderer, and if that
    returns, the lookup of a [link] element is the [TypeError] of reading
    [querySelector] on [null].  Nothing is looked up, made or appended. *)
Theorem closed_shadow_root_never_renders
    (env : environment) (p : params) (st0 st : state)
    (ops : list operation) :
  constructor env (Some p) st0 = (st, inr tt) →
  default "open" (shadowMode p) ≠ "open" →
  let st1 := perform_all env ops st in
  root st1 = NullRoot ∧
  (env bool (history st1) PreRenderCheck = inr true →
   outcome (λ e, e = TypeError_read "querySelector")
     (emitted (render env) st1) (render env st1).2 ∧
   (∀ v, (render env st1).2 ≠ inr v) ∧
   Forall (λ ev, stylesheet_call ev = false) (emitted (render env) st1)).
Proof.
  intros Hmade Hmode st1.
  assert (root st = NullRoot ∧ is_Some (stylesheets st)) as [Hroot Hsheets].
  { unfold constructor, super_constructor in Hmade.
    rewrite !step_bind, !step_modify in Hmade.
    unfold setShadowRoot in Hmade. cbv zeta in Hmade.
    rewrite !step_bind in Hmade. step_in Hmade.
    match type of Hmade with
    | ?m ?s = _ =>
        assert (keeps root m) as Hkeep by repeat keep_step;
        specialize (Hkeep s); rewrite Hmade in Hkeep
    end.
    simpl in Hkeep. unfold shadowRoot in Hkeep.
    apply String.eqb_neq in Hmode. rewrite Hmode in Hkeep.
    split; [done|].
    apply bind_inr in Hmade as (s1 & [] & _ & Hmade).
    step_in Hmade. injection Hmade as <-. by eexists. }
  assert (fixed st1 = fixed st) as Hfixed.
  { subst st1. clear. revert st.
    induction ops as [|op ops IH]; intros st; simpl; [done|].
    by rewrite IH, perform_keeps_fixed. }
  assert (root st1 = NullRoot ∧ is_Some (stylesheets st1)) as [Hroot1 Hsheets1].
  { injection Hfixed as _ -> -> _ _ _. done. }
  split; [done|]. intros Hcheck.
  destruct Hsheets1 as [sheets Hsheets1].
  unfold emitted, render.
  rewrite step_ext, Hcheck. change (negb true) with false. cbv iota beta.
  rewrite step_ext. simpl history.
  destruct (env unit _ BeforeRender) as [e|[]].
  { settle_history. split; [|split; [done|]].
    - by apply (outcome_raised _ [_]); repeat constructor.
    - by repeat constructor. }
  rewrite step_ext. simpl history.
  destruct (env (option template) _ Template) as [e|t].
  { settle_history. split; [|split; [done|]].
    - by apply (outcome_raised _ [_; _]); repeat constructor.
    - by repeat constructor. }
  assert (∀ tpl before st2,
            root st2 = NullRoot → stylesheets st2 = Some sheets →
            history st2 = history st1 ++ before →
            Forall succeeded before →
            Forall (λ ev, stylesheet_call ev = false) before →
            let run :=
              (r <- get root ;; ext env (RenderTemplate tpl r) ;;
               buildStylesheets env ;; style <- get styles ;;
               match style with
               | Some style =>
                   found <- selector env "style" ;;
                   match found with
                   | Some _ => ret tt
                   | None => appendChild env style
                   end
               | None => ret tt
               end ;;
               ext env (SetTimeout TaskRendered (Some 200)) ;;
               ret VUndefined) st2 in
            outcome (λ e, e = TypeError_read "querySelector")
              (drop (length (history st1)) (history run.1)) run.2 ∧
            (∀ v, run.2 ≠ inr v) ∧
            Forall (λ ev, stylesheet_call ev = false)
              (drop (length (history st1)) (history run.1))) as Hrest.
  { intros tpl before st2 Hr2 Hs2 Hh2 Hok Hquiet run. subst run.
    rewrite step_get, Hr2, step_ext.
    destruct (env unit (history st2) (RenderTemplate tpl NullRoot)) as [e|[]].
    - simpl. rewrite Hh2, <- app_assoc, drop_app_length.
      split; [|split; [done|]].
      + by apply outcome_raised.
      + apply Forall_app. split; [done|]. by repeat constructor.
    - unfold buildStylesheets.
      rewrite !step_bind, step_get. simpl stylesheets. rewrite Hs2.
      rewrite !step_bind, step_selector_null by done.
      simpl. rewrite Hh2, <- app_assoc, drop_app_length.
      split; [|split; [done|]].
      + apply outcome_engine; [|done].
        apply Forall_app. split; [done|]. by repeat constructor.
      + apply Forall_app. split; [done|]. by repeat constructor. }
  destruct t as [tpl|].
  - rewrite step_ret.
    apply (Hrest tpl [Event PreRenderCheck (inr true);
                      Event BeforeRender (inr tt);
                      Event Template (inr (Some tpl))]);
      try done; try (by repeat constructor).
    simpl. by rewrite <- !app_assoc.
  - rewrite step_ext. simpl history.
    destruct (env template _ Html_empty) as [e|tpl].
    { settle_history. split; [|split; [done|]].
      - by apply (outcome_raised _ [_; _; _]); repeat constructor.
      - by repeat constructor. }
    apply (Hrest tpl [Event PreRenderCheck (inr true);
                      Event BeforeRender (inr tt);
                      Event Template (inr None);
                      Event Html_empty (inr tpl)]);
      try done; try (by repeat constructor).
    simpl. by rewrite <- !app_assoc.
Qed.

(** ** Open subscriptions *)

Lemma same_handle_true a b : same_handle a b = true ↔ a = b.
Proof.
  destruct a as [i], b as [j]. simpl. rewrite Nat.eqb_eq.
  split; [by intros -> | by intros [= ->]].
Qed.

Lemma open_subscriptions_snoc key_of past ev :
  open_subscriptions key_of (past ++ [ev])
  = settle key_of (open_subscriptions key_of past) ev.
Proof. unfold open_subscriptions. by rewrite fold_left_app. Qed.

Lemma filter_elem_of {A} (f : A → bool) l x :
  x ∈ List.filter f l ↔ x ∈ l ∧ f x = true.
Proof. rewrite !list_elem_of_In. apply List.filter_In. Qed.

(** Only a [subscribe] that returned opens a subscription. *)
Lemma settle_subset key_of pending ev p :
  subscribed ev = None → p ∈ settle key_of pending ev → p ∈ pending.
Proof.
  destruct ev as [R c answer].
  destruct c; simpl; try done; destruct answer as [e|a]; simpl; try done.
  intros _ Hin. by apply filter_elem_of in Hin as [Hin _].
Qed.

Lemma all_filed_record tag ev st :
  subscribed ev = None → all_filed tag st → all_filed tag (record ev st).
Proof.
  intros Hev [Htag Hfiled]. split; [done|].
  intros key h. simpl. rewrite open_subscriptions_snoc. intros Hin.
  apply Hfiled. by eapply settle_subset.
Qed.

Ltac all_filed_step :=
  inv_step
    ltac:(apply all_filed_record; [reflexivity | assumption])
    ltac:(idtac; match goal with
          | H : all_filed _ ?st |- _ => destruct st; exact H
          end).

(** [subscribe] and the assignment that files its handle, when no
    subscription is open under the key. *)
Lemma subscribe_files (env : environment) tag s request {A} (k : M A) st :
  preserves (all_filed tag) k →
  all_filed tag st →
  (∀ h, (subscription_key tag (sub_name request), h)
        ∉ open_subscriptions (subscription_key tag) (history st)) →
  all_filed tag
    ((h <- ext env (Subscribe s request) ;;
      subs <- get subscriptions ;;
      modify (set_subscriptions
                (<[subscription_key tag (sub_name request) := h]> subs)) ;;
      k) st).1.
Proof.
  intros Hk HI Hfree. rewrite step_ext.
  destruct (env handle (history st) (Subscribe s request)) as [e|h].
  - by apply all_filed_record.
  - rewrite step_get, step_modify. apply Hk.
    destruct HI as [Htag Hfiled]. split; [done|].
    intros key h'.
    remember (subscription_key tag (sub_name request)) as filed eqn:Hkey.
    simpl history. rewrite open_subscriptions_snoc. simpl settle.
    rewrite <- Hkey, elem_of_app, list_elem_of_singleton.
    simpl subscriptions. intros [Hin|[= -> ->]].
    + destruct (decide (filed = key)) as [->|Hne].
      * by apply Hfree in Hin.
      * rewrite lookup_insert_ne by done. by apply Hfiled.
    + apply lookup_insert_eq.
Qed.

Lemma subscribeToStore_all_filed (env : environment) tag d dorender :
  preserves (all_filed tag) (subscribeToStore env d dorender).
Proof.
  intros st HI. pose proof HI as [Htag Hfiled].
  unfold subscribeToStore. rewrite step_get, Htag. cbv beta zeta.
  match goal with
  | |- all_filed _ (bind (unsubscribeFromStore _ ?key) ?k _).1 =>
      assert (∀ st1,
                all_filed tag st1 →
                (∀ h, (key, h)
                      ∉ open_subscriptions (subscription_key tag) (history st1)) →
                all_filed tag (k tt st1).1) as Htail
  end.
  { intros st1 HI1 Hfree. cbv beta. rewrite step_ext.
    destruct (env _ (history st1) (Store (store d))) as [e|s];
      [by apply all_filed_record|].
    apply (subscribe_files env tag s
             (Subscription (UpdateData (name d)) (storePath d) (just d)
                (not_ d) (name d))).
    - unfold assign_data, render, buildStylesheets. repeat all_filed_step.
    - by apply all_filed_record.
    - intros h. simpl history. rewrite open_subscriptions_snoc. simpl.
      apply Hfree. }
  unfold unsubscribeFromStore. rewrite step_bind, step_get.
  unfold subscription_under.
  destruct (String.eqb _ "__proto__"); [by rewrite step_throw|].
  unfold get_property.
  destruct (subscriptions st !! subscription_key tag (name d))
    as [h0|] eqn:Hold.
  - rewrite step_ext.
    destruct (env unit (history st) (Unsubscribe h0)) as [e|[]].
    + by apply all_filed_record.
    + apply Htail; [by apply all_filed_record|].
      intros h. simpl history. rewrite open_subscriptions_snoc. simpl settle.
      rewrite filter_elem_of. intros [Hin Hother].
      apply Hfiled in Hin. rewrite Hold in Hin. injection Hin as ->.
      simpl in Hother. apply negb_true_iff in Hother.
      assert (same_handle h h = true) as Hsame by by apply same_handle_true.
      congruence.
  - destruct (inherited (subscription_key tag (name d))).
    + by rewrite step_throw.
    + rewrite step_ret. apply Htail; [done|].
      intros h Hin. apply Hfiled in Hin. congruence.
Qed.

(** After the [unsubscribe] of every handle of [hs] has returned, what is
    still open is not of one of them. *)
Lemma open_after_unsubscriptions key_of hs pending p :
  p ∈ fold_left (settle key_of) (map unsubscription hs) pending →
  p ∈ pending ∧ p.2 ∉ hs.
Proof.
  revert pending. induction hs as [|h hs IH]; intros pending; simpl.
  - intros Hin. split; [done|]. by apply not_elem_of_nil.
  - intros Hin. apply IH in Hin as [Hin Hrest].
    apply filter_elem_of in Hin as [Hin Hother]. split; [done|].
    apply not_elem_of_cons. split; [|done].
    intros Hsame. apply same_handle_true in Hsame.
    apply negb_true_iff in Hother. congruence.
Qed.

Lemma open_after_removals key_of offs pending :
  fold_left (settle key_of) (map removal offs) pending = pending.
Proof.
  revert pending. induction offs as [|off offs IH]; intros pending; [done|].
  simpl. apply IH.
Qed.

Lemma filed_not_open tag st p :
  all_filed tag st →
  p ∈ open_subscriptions (subscription_key tag) (history st) →
  p.2 ∈ (map_to_list (subscriptions st)).*2.
Proof.
  intros [_ Hfiled] Hin. destruct p as [key h].
  apply Hfiled in Hin. simpl.
  apply (list_elem_of_fmap_2' snd _ (key, h)); [|done].
  by apply elem_of_map_to_list.
Qed.

Lemma unsubscribeFromAllStores_all_filed (env : environment) tag :
  preserves (all_filed tag) (unsubscribeFromAllStores env).
Proof.
  intros st HI. unfold unsubscribeFromAllStores. rewrite step_get. simpl.
  unfold bind.
  destruct (for_each _ _ st) as [st1 [e|[]]] eqn:Hloop; simpl.
  - assert (preserves (all_filed tag)
              (for_each (λ sub, ext env (Unsubscribe sub))
                 (map_to_list (subscriptions st)).*2)) as Hkeep
      by repeat all_filed_step.
    specialize (Hkeep st HI). by rewrite Hloop in Hkeep.
  - apply for_each_ext_inr in Hloop as [Hh Hmemory].
    split.
    + destruct HI as [<- _]. by injection Hmemory.
    + intros key h. simpl. rewrite Hh.
      unfold open_subscriptions. rewrite fold_left_app. intros Hin.
      apply (open_after_unsubscriptions _ _ _ (key, h)) in Hin as [Hin Hnot].
      by apply (filed_not_open tag st) in Hin.
Qed.

Lemma perform_all_filed (env : environment) tag op :
  preserves (all_filed tag) (perform env op).
Proof.
  pose proof (subscribeToStore_all_filed env tag).
  pose proof (unsubscribeFromAllStores_all_filed env tag).
  destruct op; simpl;
    unfold connectedCallback, disconnectedCallback, super_disconnectedCallback,
      attributeChangedCallback, setStore, updateData,
      unsubscribeFromStore, assign_data, render, buildStylesheets,
      on, run_remover, run_callback, run_task, rendered_task,
      dispatch, debug_log_task;
    repeat all_filed_step.
Qed.

Lemma nothing_open_record tag {R} (c : call R) a st :
  settle (subscription_key tag) [] (Event c a) = [] →
  nothing_open tag st → nothing_open tag (record (Event c a) st).
Proof.
  intros Hc [Htag Hopen]. split; [done|]. simpl.
  by rewrite open_subscriptions_snoc, Hopen.
Qed.

Lemma constructor_all_filed (env : environment) tag debug sheets p :
  all_filed tag (constructor env p (allocate tag debug sheets [])).1.
Proof.
  assert (preserves (nothing_open tag) (constructor env p)) as Hmade.
  { unfold constructor, super_constructor, setShadowRoot.
    repeat inv_step
      ltac:(apply nothing_open_record; [reflexivity | assumption])
      ltac:(idtac; match goal with
            | H : nothing_open _ ?st |- _ => destruct st; exact H
            end). }
  destruct (Hmade (allocate tag debug sheets [])) as [Htag Hopen]; [done|].
  split; [done|]. intros key h. rewrite Hopen. by intros ?%elem_of_nil.
Qed.

(** X9.  No subscription is lost track of.  Take an element made by the
    constructor and let any operations run on it, failed ones included.  Then
    every subscription that is open (a [subscribe] of the element returned
    its handle, and no [unsubscribe] of that handle has returned since) is an
    entry of the subscription map, under the key of its request: the
    request's name or, without one, the tag name less its first hyphen.  So
    whatever failed in between, [unsubscribeFromAllStores] still reaches
    every open subscription. *)
Theorem open_subscriptions_are_filed
    (env : environment) (tag : string) (debug : bool)
    (sheets : option (gmap string value)) (p : option params)
    (ops : list operation) (key : string) (h : handle) :
  let made := (constructor env p (allocate tag debug sheets [])).1 in
  let st := perform_all env ops made in
  (key, h) ∈ open_subscriptions (subscription_key tag) (history st) →
  subscriptions st !! key = Some h.
Proof.
  intros made st.
  assert (all_filed tag st) as [_ Hfiled]; [|apply Hfiled].
  apply (inv_perform_all env); [apply perform_all_filed|].
  apply constructor_all_filed.
Qed.

(** X10.  A teardown that runs to its end leaves no subscription open.  For
    an element made by the constructor, after any operations: when
    [disconnectedCallback] returns, every handle that a [subscribe] of the
    element ever returned has had an [unsubscribe] return after it. *)
Theorem teardown_closes_every_subscription
    (env : environment) (tag : string) (debug : bool)
    (sheets : option (gmap string value)) (p : option params)
    (ops : list operation) (st' : state) :
  let made := (constructor env p (allocate tag debug sheets [])).1 in
  let st := perform_all env ops made in
  disconnectedCallback env st = (st', inr tt) →
  open_subscriptions (subscription_key tag) (history st') = [].
Proof.
  intros made st Hdown.
  assert (all_filed tag st) as HI.
  { apply (inv_perform_all env); [apply perform_all_filed|].
    apply constructor_all_filed. }
  apply disconnectedCallback_inr in Hdown as [Hh _].
  rewrite Hh. unfold open_subscriptions. rewrite !fold_left_app.
  rewrite open_after_removals.
  destruct (fold_left _ (map unsubscription _) _) as [|q rest] eqn:Hleft;
    [done|].
  assert (q ∈ q :: rest) as Hin by apply list_elem_of_here.
  rewrite <- Hleft in Hin.
  apply open_after_unsubscriptions in Hin as [Hin Hnot].
  by apply (filed_not_open tag st) in Hin.
Qed.

(** ** The key of a subscription without a name *)

Lemma replace_first_occurrence (pre post : string) :
  existsb (Ascii.eqb "-") (characters pre) = false →
  replace "-" EmptyString (pre +:+ String "-" post) = pre +:+ post.
Proof.
  induction pre as [|c pre IH]; [done|].
  intros Hnone. cbn [characters existsb] in Hnone.
  apply orb_false_iff in Hnone as [Hc Hpre].
  change (replace "-" EmptyString (String c pre +:+ String "-" post))
    with (if Ascii.eqb c "-"
          then EmptyString +:+ (pre +:+ String "-" post)
          else String c (replace "-" EmptyString (pre +:+ String "-" post))).
  rewrite Ascii.eqb_sym in Hc. rewrite Hc, IH by done. done.
Qed.

(** X11.  For a descriptor without a name (or with an empty one), the key of
    the subscription is the tag name with its first hyphen taken out, and
    only that one: [this.tagName.replace('-', '')] replaces one occurrence.
    A tag [pre-post] whose [pre] holds no hyphen is filed under [prepost],
    whatever further hyphens [post] holds. *)
Theorem nameless_key_drops_first_hyphen
    (pre post : string) (name : option string) :
  name_truthy name = false →
  existsb (Ascii.eqb "-") (characters pre) = false →
  subscription_key (pre +:+ String "-" post) name = pre +:+ post.
Proof.
  intros Hname Hpre. unfold subscription_key, name_or.
  rewrite (replace_first_occurrence pre post Hpre).
  destruct name as [s|]; [|done].
  simpl in Hname. apply negb_false_iff in Hname. by rewrite Hname.
Qed.

(** ** What [setStore] leaves behind *)

Lemma subscribeToStore_inr_subscriptions (env : environment) d dorender st st' :
  subscribeToStore env d dorender st = (st', inr tt) →
  tagName st' = tagName st ∧
  ∃ h, subscriptions st' =
       <[subscription_key (tagName st) (name d) := h]> (subscriptions st).
Proof.
  intros H. split.
  { pose proof (perform_keeps_fixed env (SubscribeToStore d dorender) st)
      as Hfixed.
    simpl in Hfixed. rewrite H in Hfixed. by injection Hfixed. }
  unfold subscribeToStore in H. rewrite step_get in H. cbv beta zeta in H.
  apply bind_inr in H as (st1 & [] & Hunsub & H).
  assert (keeps subscriptions
            (unsubscribeFromStore env
               (subscription_key (tagName st) (name d)))) as Hkeep
    by (unfold unsubscribeFromStore; repeat keep_step).
  specialize (Hkeep st). rewrite Hunsub in Hkeep. simpl in Hkeep.
  step_in H.
  match type of H with
  | ?m ?s = _ =>
      assert (keeps subscriptions m) as Hrest
        by (unfold assign_data; repeat keep_step);
      specialize (Hrest s); rewrite H in Hrest
  end.
  simpl in Hrest. rewrite Hkeep in Hrest. eauto.
Qed.

Lemma subscribe_each_inr (env : environment) dorender ds st st' :
  for_each (λ d, subscribeToStore env d dorender) ds st = (st', inr tt) →
  tagName st' = tagName st ∧
  dom (subscriptions st') =@{gset string}
    dom (subscriptions st) ∪ list_to_set (keys_of (tagName st) ds).
Proof.
  revert st. induction ds as [|d ds IH]; intros st H.
  - injection H as <-. split; [done|]. simpl. by rewrite union_empty_r_L.
  - simpl in H. apply bind_inr in H as (st1 & [] & H1 & H2).
    apply subscribeToStore_inr_subscriptions in H1 as (Htag & h & Hsubs).
    apply IH in H2 as (Htag' & Hdom).
    split; [congruence|].
    rewrite Hdom, Hsubs, Htag, dom_insert_L. simpl.
    apply set_eq. intros x. rewrite !elem_of_union. tauto.
Qed.

(** X12.  A [setStore] that returns has parsed its source once and left one
    entry in the subscription map for every descriptor that [parse]
    returned (a single descriptor, or each one of an array), under the
    descriptor's key; the entries that were there under other keys are still
    there.  The keys of the map are the keys it had and the keys of the
    descriptors, no more. *)
Theorem setStore_files_every_descriptor
    (env : environment) (store : value) (st st' : state) :
  setStore env store st = (st', inr tt) →
  ∃ source stores,
    Event (Parse source) (inr stores) ∈ since st st' ∧
    dom (subscriptions st') =@{gset string}
      dom (subscriptions st)
      ∪ list_to_set (keys_of (tagName st) (descriptors stores)).
Proof.
  intros H. unfold setStore in H. cbv zeta in H.
  apply bind_inr in H as (st1 & source & Hsource & H).
  assert (∃ evs, history st1 = history st ++ evs ∧
                 subscriptions st1 = subscriptions st ∧
                 tagName st1 = tagName st) as (evs1 & Hh1 & Hs1 & Ht1).
  { destruct (truthy store).
    - injection Hsource as <- _. exists []. by rewrite app_nil_r.
    - apply ext_inr in Hsource as [_ ->]. by eexists. }
  step_in H. rename a into stores.
  match type of H with
  | ?m ?s = _ =>
      assert (passes engine_error m) as Hpasses
        by (destruct stores; repeat pass_step);
      destruct (passes_grows _ _ Hpasses s) as (evs2 & Hh2);
      rewrite H in Hh2
  end.
  simpl in Hh2.
  exists source, stores. split.
  - rewrite (since_app st st' (evs1 ++ Event (Parse source) (inr stores) :: evs2)).
    + apply elem_of_app. right. apply list_elem_of_here.
    + rewrite Hh2, Hh1. by rewrite <- !app_assoc.
  - destruct stores as [d|ds]; simpl descriptors.
    + apply subscribeToStore_inr_subscriptions in H as (_ & h & ->).
      simpl. rewrite dom_insert_L, Hs1, Ht1.
      apply set_eq. intros x. rewrite !elem_of_union, elem_of_empty. tauto.
    + apply subscribe_each_inr in H as (_ & ->).
      simpl. by rewrite Hs1, Ht1.
Qed.

(** ** Renders of [setStore] *)

Lemma renders_none {A} (m : M A) :
  emits (λ ev, renderer_call ev = false) m → renders 0 m.
Proof.
  intros H st. destruct (H st) as (evs & Hh & Hall).
  exists evs. split; [done|]. intros _.
  clear Hh. induction Hall as [|ev evs Hev _ IH]; simpl; [done|].
  simpl in Hev. by rewrite Hev.
Qed.

Lemma renders_bind {A B} n1 n2 (m : M A) (k : A → M B) :
  renders n1 m → (∀ a, renders n2 (k a)) → renders (n1 + n2) (bind m k).
Proof.
  intros Hm Hk.
  apply (run_bind m k
           (λ evs r, (∃ a, r = inr a) →
                     length (List.filter renderer_call evs) = n1)
           (λ _ evs r, (∃ b, r = inr b) →
                       length (List.filter renderer_call evs) = n2));
    [exact Hm | exact Hk | |].
  - by intros evs e _ [b [=]].
  - intros evs1 a evs2 r H1 H2 Hr.
    rewrite List.filter_app, length_app, H1, H2; eauto.
Qed.

Lemma render_renders_once (env : environment) :
  (∀ past, env bool past PreRenderCheck = inr true) →
  renders 1 (render env).
Proof.
  intros Hcheck st.
  destruct (passes_grows _ _ (render_propagates env) st) as (evs & Hh).
  exists evs. split; [done|]. intros [v Hv].
  destruct (render env st) as [st' r] eqn:Hrun. simpl in *. subst r.
  apply render_inr in Hrun
    as (t & tpl & empty & housekeeping & Hh' & Ht & Hall & _);
    [|apply Hcheck].
  rewrite Hh' in Hh. apply app_inv_head in Hh. subst evs.
  rewrite !List.filter_app, (filter_renderer_housekeeping _ Hall).
  destruct t as [returned|]; [destruct Ht as [_ ->]|rewrite Ht]; done.
Qed.

Lemma subscribeToStore_renders_once (env : environment) d :
  (∀ past, env bool past PreRenderCheck = inr true) →
  renders 1 (subscribeToStore env d true).
Proof.
  intros Hcheck. pose proof (render_renders_once env Hcheck) as Hrender.
  unfold subscribeToStore, unsubscribeFromStore, assign_data.
  repeat first
    [ apply (renders_bind 1 0); [exact Hrender | intros]
    | apply (renders_bind 0 1); [apply renders_none; repeat emit_step | intros]
    | apply renders_none; repeat emit_step ].
Qed.

Lemma subscribe_each_renders (env : environment) ds :
  (∀ past, env bool past PreRenderCheck = inr true) →
  renders (length ds) (for_each (λ d, subscribeToStore env d true) ds).
Proof.
  intros Hcheck. induction ds as [|d ds IH]; simpl.
  - apply renders_none. apply emits_ret.
  - apply (renders_bind 1 (length ds)); [|done].
    by apply subscribeToStore_renders_once.
Qed.

(** X13.  [setStore(store)] with a store given renders the element once for
    every descriptor, within the call: for an element whose check lets every
    render pass, a [setStore] that returns has parsed [store] itself (the
    [data-store] attribute is not read) and has called the renderer as many
    times as [parse] returned descriptors. *)
Theorem setStore_renders_once_per_descriptor
    (env : environment) (store : value) (st st' : state) :
  truthy store = true →
  (∀ past, env bool past PreRenderCheck = inr true) →
  setStore env store st = (st', inr tt) →
  ∃ stores,
    head (since st st') = Some (Event (Parse store) (inr stores)) ∧
    Forall (λ ev, reads_dataset ev = false) (since st st') ∧
    length (List.filter renderer_call (since st st'))
    = length (descriptors stores).
Proof.
  intros Hstore Hcheck H. unfold setStore in H. rewrite Hstore in H.
  cbv zeta in H. rewrite step_ret in H. step_in H. rename a into stores.
  assert (renders (length (descriptors stores))
            (match stores with
             | Single d => subscribeToStore env d true
             | Many ds => for_each (λ d, subscribeToStore env d true) ds
             end)) as Hrenders.
  { destruct stores as [d|ds]; simpl.
    - by apply subscribeToStore_renders_once.
    - by apply subscribe_each_renders. }
  assert (emits (λ ev, reads_dataset ev = false)
            (match stores with
             | Single d => subscribeToStore env d true
             | Many ds => for_each (λ d, subscribeToStore env d true) ds
             end)) as Hquiet.
  { unfold subscribeToStore, unsubscribeFromStore, assign_data, render,
      buildStylesheets.
    destruct stores; repeat emit_step. }
  destruct (Hrenders (record (Event (Parse store) (inr stores)) st))
    as (evs & Hh & Hcount).
  destruct (Hquiet (record (Event (Parse store) (inr stores)) st))
    as (evs' & Hh' & Hnone).
  rewrite Hh in Hh'. apply app_inv_head in Hh'. subst evs'.
  rewrite H in Hh, Hcount. simpl in Hh, Hcount.
  exists stores.
  rewrite (since_app st st' (Event (Parse store) (inr stores) :: evs))
    by (rewrite Hh; by rewrite <- app_assoc).
  split; [done|]. split; [by constructor|].
  simpl. apply Hcount. eauto.
Qed.

(** ** A teardown that fails *)

(** X14.  When a listener remover throws at teardown, the subscriptions are
    not reached: [disconnectedCallback] fails with that exception, it has
    made no call to the store library, and the subscription map is what it
    was, so every subscription of the element stays open. *)
Theorem failed_remover_skips_unsubscribing
    (env : environment) (st st1 : state) (e : error) :
  super_disconnectedCallback env st = (st1, inl e) →
  disconnectedCallback env st = (st1, inl e) ∧
  subscriptions st1 = subscriptions st ∧
  Forall (λ ev, store_call ev = false) (since st st1).
Proof.
  intros Hsuper. split; [|split].
  - unfold disconnectedCallback, bind. by rewrite Hsuper.
  - assert (keeps subscriptions (super_disconnectedCallback env)) as Hkeep
      by (unfold super_disconnectedCallback, run_remover; repeat keep_step).
    specialize (Hkeep st). by rewrite Hsuper in Hkeep.
  - assert (emits (λ ev, store_call ev = false)
              (super_disconnectedCallback env)) as Hemits
      by (unfold super_disconnectedCallback, run_remover; repeat emit_step).
    destruct (Hemits st) as (evs & Hh & Hall). rewrite Hsuper in Hh.
    simpl in Hh. by rewrite (since_app _ _ _ Hh).
Qed.

(** ** The properties on sample elements *)

(** X2 on an element that listens for clicks and holds a subscription. *)
Lemma listeners_are_removed_at_teardown_witness :
  let st' := perform_all plain sample_operations my_element in
  let run := disconnectedCallback plain st' in
  run.2 = inr tt ∧
  events st' = events my_element ++ registered (since my_element st') ∧
  ∃ unsubscribing,
    since st' run.1 = map removal (events st') ++ unsubscribing ∧
    Forall (λ ev, store_call ev = true) unsubscribing.
Proof.
  intros st' run. split; [vm_compute; reflexivity|].
  apply (listeners_are_removed_at_teardown plain sample_operations
           my_element run.1).
  vm_compute. reflexivity.
Defined.

(** X3 on the [user] subscription of [subscribed_element]. *)
Lemma unsubscribed_entry_stays_witness :
  let st1 := (unsubscribeFromStore plain "user" subscribed_element).1 in
  let st2 := (disconnectedCallback plain st1).1 in
  (subscriptions subscribed_element !! "user" = Some (Handle 1) ∧
   (unsubscribeFromStore plain "user" subscribed_element).2 = inr tt ∧
   (disconnectedCallback plain st1).2 = inr tt) ∧
  since subscribed_element st1 = [unsubscription (Handle 1)] ∧
  subscriptions st1 !! "user" = Some (Handle 1) ∧
  unsubscription (Handle 1) ∈ since st1 st2.
Proof.
  intros st1 st2. split; [repeat split; vm_compute; reflexivity|].
  apply (unsubscribed_entry_stays plain "user" (Handle 1)
           subscribed_element st1 st2);
    vm_compute; reflexivity.
Defined.

(** X5 on [subscribed_element], torn down and attached again. *)
Lemma reconnecting_restores_no_subscription_witness :
  let st1 := (disconnectedCallback plain subscribed_element).1 in
  let st2 := (connectedCallback plain st1).1 in
  ((disconnectedCallback plain subscribed_element).2 = inr tt ∧
   size (subscriptions subscribed_element) = 2) ∧
  subscriptions st2 = ∅ ∧
  data st2 = data subscribed_element ∧
  Forall (λ ev, store_call ev = false) (emitted (connectedCallback plain) st1).
Proof.
  intros st1 st2. split; [split; vm_compute; reflexivity|].
  apply (reconnecting_restores_no_subscription plain subscribed_element st1).
  vm_compute. reflexivity.
Defined.

(** X6 in a host whose check refuses: attaching the element, a store update,
    a deferred render and a [setStore] with a store. *)
Lemma refused_check_stops_every_render_witness :
  (∀ past, gated bool past PreRenderCheck = inr false) ∧
  length (since my_element (perform_all gated gated_operations my_element)) = 10 ∧
  Forall (λ ev, past_the_check ev = false)
    (since my_element (perform_all gated gated_operations my_element)).
Proof.
  split; [intros past; reflexivity|]. split; [vm_compute; reflexivity|].
  apply (refused_check_stops_every_render gated gated_operations my_element).
  intros past. reflexivity.
Defined.

(** X7 on an element with an open shadow root, three stylesheets and no
    table: the first render makes a [link] element and stops. *)
Lemma buildStylesheets_needs_the_table_witness :
  let calls := emitted (buildStylesheets plain) linked_element in
  let result := (buildStylesheets plain linked_element).2 in
  (stylesheets linked_element = Some ["main"; "theme"; "toString"] ∧
   STYLESHEETS linked_element = None ∧
   root linked_element = ShadowRoot (Node 1) ∧
   result = inl (TypeError_read "main") ∧
   calls = [Event (QuerySelector (ShadowRoot (Node 1)) "link") (inr None);
            Event (CreateElement "link") (inr (Node 4));
            Event (SetAttribute (Node 4) "rel" (Value (VString "stylesheet")))
                  (inr tt)]) ∧
  outcome (λ e, e = TypeError_read "main") calls result ∧
  Forall (λ ev, appends ev = false) calls ∧
  (result = inr tt →
     ∃ link,
       calls = [Event (QuerySelector (root linked_element) "link")
                  (inr (Some link))]).
Proof.
  intros calls result. split; [repeat split; vm_compute; reflexivity|].
  apply (buildStylesheets_needs_the_table plain linked_element "main"
           ["theme"; "toString"]);
    [vm_compute; reflexivity | vm_compute; reflexivity | discriminate].
Defined.

(** X8 on the same element once the table is set, with an entry for [main]
    only: the three stylesheets are linked, [theme] with an [href] of
    [undefined] and [toString] with the function that objects inherit. *)
Lemma buildStylesheets_links_in_order_witness :
  let st' := (buildStylesheets plain tabled_element).1 in
  let r := ShadowRoot (Node 1) in
  (stylesheets tabled_element = Some ["main"; "theme"; "toString"] ∧
   STYLESHEETS tabled_element = Some sheet_table ∧
   (buildStylesheets plain tabled_element).2 = inr tt ∧
   root tabled_element = r ∧
   since tabled_element st'
   = [Event (QuerySelector r "link") (inr None);
      Event (CreateElement "link") (inr (Node 4));
      Event (SetAttribute (Node 4) "rel" (Value (VString "stylesheet")))
            (inr tt);
      Event (SetAttribute (Node 4) "href" (Value (VString "/main.css")))
            (inr tt);
      Event (AppendChild r (Node 4)) (inr tt);
      Event (CreateElement "link") (inr (Node 8));
      Event (SetAttribute (Node 8) "rel" (Value (VString "stylesheet")))
            (inr tt);
      Event (SetAttribute (Node 8) "href" (Value VUndefined)) (inr tt);
      Event (AppendChild r (Node 8)) (inr tt);
      Event (CreateElement "link") (inr (Node 12));
      Event (SetAttribute (Node 12) "rel" (Value (VString "stylesheet")))
            (inr tt);
      Event (SetAttribute (Node 12) "href" (Member "toString")) (inr tt);
      Event (AppendChild r (Node 12)) (inr tt)]) ∧
  root tabled_element ≠ NullRoot ∧
  ((∃ link,
      since tabled_element st'
      = [Event (QuerySelector (root tabled_element) "link")
           (inr (Some link))]) ∨
   (∃ elms,
      length elms = length ["main"; "theme"; "toString"] ∧
      since tabled_element st' =
        Event (QuerySelector (root tabled_element) "link") (inr None)
        :: concat (zip_with (link_calls (root tabled_element) sheet_table)
                     ["main"; "theme"; "toString"] elms))).
Proof.
  intros st' r. split; [repeat split; vm_compute; reflexivity|].
  apply (buildStylesheets_links_in_order plain tabled_element st'
           ["main"; "theme"; "toString"] sheet_table);
    vm_compute; reflexivity.
Defined.

(** X9 on the [user] subscription of [subscribed_element]. *)
Lemma open_subscriptions_are_filed_witness :
  open_subscriptions (subscription_key "MY-ELEMENT")
    (history subscribed_element)
  = [("user", Handle 1); ("MYELEMENT", Handle 5)] ∧
  subscriptions subscribed_element !! "user" = Some (Handle 1).
Proof.
  split; [vm_compute; reflexivity|].
  apply (open_subscriptions_are_filed plain "MY-ELEMENT" false None None
           [SubscribeToStore user_descriptor false;
            SubscribeToStore nameless_descriptor false;
            On "click" None (Listener 1)]
           "user" (Handle 1)).
  vm_compute. constructor.
Defined.

(** X10 on [subscribed_element], which holds two subscriptions. *)
Lemma teardown_closes_every_subscription_witness :
  let run := disconnectedCallback plain subscribed_element in
  (run.2 = inr tt ∧
   length (open_subscriptions (subscription_key "MY-ELEMENT")
             (history subscribed_element)) = 2) ∧
  open_subscriptions (subscription_key "MY-ELEMENT") (history run.1) = [].
Proof.
  intros run. split; [split; vm_compute; reflexivity|].
  apply (teardown_closes_every_subscription plain "MY-ELEMENT" false None None
           [SubscribeToStore user_descriptor false;
            SubscribeToStore nameless_descriptor false;
            On "click" None (Listener 1)]
           run.1).
  vm_compute. reflexivity.
Defined.

(** X11 on a tag with two hyphens. *)
Lemma nameless_key_drops_first_hyphen_witness :
  (name_truthy None = false ∧
   existsb (Ascii.eqb "-") (characters "MY") = false) ∧
  subscription_key "MY-LIST-ITEM" None = "MYLIST-ITEM".
Proof.
  split; [split; reflexivity|].
  apply (nameless_key_drops_first_hyphen "MY" "LIST-ITEM" None); reflexivity.
Defined.

(** X12 in a host whose [parse] returns two descriptors. *)
Lemma setStore_files_every_descriptor_witness :
  let run := setStore two_stores (VString "app|user") my_element in
  (run.2 = inr tt ∧ subscriptions my_element = ∅) ∧
  ∃ source stores,
    Event (Parse source) (inr stores) ∈ since my_element run.1 ∧
    dom (subscriptions run.1) =@{gset string}
      dom (subscriptions my_element)
      ∪ list_to_set (keys_of (tagName my_element) (descriptors stores)).
Proof.
  intros run. split; [split; vm_compute; reflexivity|].
  apply (setStore_files_every_descriptor two_stores (VString "app|user")
           my_element run.1).
  vm_compute. reflexivity.
Defined.

(** X13 in the same host: two descriptors, two renders. *)
Lemma setStore_renders_once_per_descriptor_witness :
  let run := setStore two_stores (VString "app|user") my_element in
  (truthy (VString "app|user") = true ∧
   (∀ past, two_stores bool past PreRenderCheck = inr true) ∧
   run.2 = inr tt ∧
   length (List.filter renderer_call (since my_element run.1)) = 2) ∧
  ∃ stores,
    head (since my_element run.1)
    = Some (Event (Parse (VString "app|user")) (inr stores)) ∧
    Forall (λ ev, reads_dataset ev = false) (since my_element run.1) ∧
    length (List.filter renderer_call (since my_element run.1))
    = length (descriptors stores).
Proof.
  intros run. split.
  { repeat split; try (vm_compute; reflexivity). }
  apply (setStore_renders_once_per_descriptor two_stores (VString "app|user")
           my_element run.1).
  - reflexivity.
  - intros past. reflexivity.
  - vm_compute. reflexivity.
Defined.

(** X14 on [subscribed_element] in a host that cannot remove listeners. *)
Lemma failed_remover_skips_unsubscribing_witness :
  let run := disconnectedCallback (jammed (VString "stuck")) subscribed_element in
  (super_disconnectedCallback (jammed (VString "stuck")) subscribed_element
   = (run.1, inl (Thrown (VString "stuck"))) ∧
   size (subscriptions subscribed_element) = 2) ∧
  run = (run.1, inl (Thrown (VString "stuck"))) ∧
  subscriptions run.1 = subscriptions subscribed_element ∧
  Forall (λ ev, store_call ev = false) (since subscribed_element run.1).
Proof.
  intros run. split; [split; vm_compute; reflexivity|].
  apply (failed_remover_skips_unsubscribing (jammed (VString "stuck"))
           subscribed_element run.1 (Thrown (VString "stuck"))).
  vm_compute. reflexivity.
Defined.

(** X15 on an element made with a closed shadow tree, after it was attached
    and a store update came in. *)
Lemma closed_shadow_root_never_renders_witness :
  let p := Params (Some "closed") None None in
  let st := create plain "MY-ELEMENT" (Some p) in
  let st1 := perform_all plain
               [ConnectedCallback; Notify (UpdateData None) (VNumber 1)] st in
  (constructor plain (Some p) (allocate "MY-ELEMENT" false None [])
   = (st, inr tt) ∧
   plain bool (history st1) PreRenderCheck = inr true ∧
   (render plain st1).2 = inl (TypeError_read "querySelector")) ∧
  root st1 = NullRoot ∧
  (plain bool (history st1) PreRenderCheck = inr true →
   outcome (λ e, e = TypeError_read "querySelector")
     (emitted (render plain) st1) (render plain st1).2 ∧
   (∀ v, (render plain st1).2 ≠ inr v) ∧
   Forall (λ ev, stylesheet_call ev = false) (emitted (render plain) st1)).
Proof.
  intros p st st1. split; [repeat split; vm_compute; reflexivity|].
  apply (closed_shadow_root_never_renders plain p
           (allocate "MY-ELEMENT" false None []) st
           [ConnectedCallback; Notify (UpdateData None) (VNumber 1)]).
  - vm_compute. reflexivity.
  - discriminate.
Defined.
